(** * run_chunked_eval.py: the evaluation driver of chunked-pooling

    A shallow embedding of [src/run_chunked_eval.py].  The script is a
    click command, [main], that resolves a task class by name in the module
    namespace, validates the truncation / long-late-chunking options, loads
    a model and a tokenizer and runs the MTEB evaluation twice.

    Everything [main] calls lives outside the file (click, torch, mteb,
    transformers, chunked_pooling).  Those calls are modelled as requests
    to a [World]: each request is appended to a log of [event]s and answered
    by the world, which may return a value or raise.  The answers may
    depend on everything that happened before (the log so far), so the
    theorems below hold for every behaviour of the libraries.  Writing a
    line to standard output is logged too and is taken to succeed.

    [assert] is the statement of an interpreter run without [-O]. *)

From stdpp Require Import base option list strings gmap fin_maps.
From Stdlib Require Import ZArith Lia Ascii.

Local Open Scope string_scope.
Local Open Scope list_scope.
Local Open Scope Z_scope.

(** ** Python values *)

(** The values the script handles.  [VObj] is an object known by its
    qualified name (a module, class or function bound at import time);
    [VRef] is an instance created while the script runs, known by its
    identity. *)
#[warnings="-register-all"]
Inductive pyval : Type :=
| VNone
| VBool (b : bool)
| VInt (z : Z)
| VStr (s : string)
| VList (l : list pyval)
| VDict (d : list (string * pyval))
| VObj (qualname : string)
| VRef (id : nat).

(** An optional integer as a value: [None] or the integer. *)
Definition of_int_opt (o : option Z) : pyval :=
  match o with
  | Some z => VInt z
  | None => VNone
  end.

(** [x is not None] *)
Definition is_not_None {A} (x : option A) : bool :=
  match x with
  | Some _ => true
  | None => false
  end.

(** Keyword arguments of a call, and dicts with string keys. *)
Abbreviation kwargs := (gmap string pyval).

(** [f(k1=v1, ..., **d)].  Python raises TypeError when [d] repeats one of
    the explicit keywords; at each call site of the script the keys are
    literals and none is a key of the dict (see [star_keywords_fresh]), so
    the union below loses nothing. *)
Definition call_kwargs (explicit : list (string * pyval)) (star : kwargs) : kwargs :=
  list_to_map explicit ∪ star.

(** ** Exceptions and results *)

Inductive exn : Type :=
| KeyError (key : string)
| ValueError (msg : string)
| AssertionError (msg : string)
| OtherError (cls msg : string).

Inductive result (A : Type) : Type :=
| Ok (a : A)
| Raise (e : exn).
Arguments Ok {A} a.
Arguments Raise {A} e.

(** ** Calls into the libraries *)

Inductive event : Type :=
| EPrint (s : string)
| ELoadModel (model_name : string)
| EFromPretrained (name : string) (kw : kwargs)
| ECudaIsAvailable
| EModelCuda (model : pyval)
| EModelEval (model : pyval)
| ECall (callee : pyval) (kw : kwargs)
| EMTEB (kw : kwargs)
| ERun (evaluation model : pyval) (kw : kwargs).

(** The world the script runs in: the names the interpreter and the star
    import put into the module namespace, and the answer of each library
    call given the log of the calls made before it. *)
Record World : Type := {
  module_dunders : kwargs;
  star_exports : list (string * pyval);
  on_load_model : list event → string → result (pyval * pyval);
  on_from_pretrained : list event → string → kwargs → result pyval;
  on_cuda_is_available : list event → result bool;
  on_model_cuda : list event → pyval → result pyval;
  on_model_eval : list event → pyval → result unit;
  on_call : list event → pyval → kwargs → result pyval;
  on_MTEB : list event → kwargs → result pyval;
  on_run : list event → pyval → pyval → kwargs → result unit;
}.

(** ** The monad of the script: a world to ask, a log to extend, a result *)

Definition M (A : Type) : Type := World → list event → list event * result A.

#[global] Instance M_ret : MRet M := λ A a _ log, (log, Ok a).

#[global] Instance M_bind : MBind M := λ A B k m w log,
  match m w log with
  | (log', Ok a) => k a w log'
  | (log', Raise e) => (log', Raise e)
  end.

Definition raise {A} (e : exn) : M A := λ _ log, (log, Raise e).

(** [try: body  except: handler] with a bare [except], which catches every
    exception. *)
Definition try_except {A} (body : M A) (handler : exn → M A) : M A := λ w log,
  match body w log with
  | (log', Ok a) => (log', Ok a)
  | (log', Raise e) => handler e w log'
  end.

(** A library call: log the request, then take the world's answer, which
    was computed from the log before the request. *)
Definition request {A} (e : event) (answer : World → list event → result A) : M A :=
  λ w log, (log ++ [e], answer w log).

(** [assert cond, msg] *)
Definition assert_ (cond : bool) (msg : string) : M unit :=
  if cond then mret () else raise (AssertionError msg).

(** [d[key]] *)
Definition getitem (d : kwargs) (key : string) : M pyval :=
  match d !! key with
  | Some v => mret v
  | None => raise (KeyError key)
  end.

(** ** The module *)

Definition DEFAULT_CHUNKING_STRATEGY : string := "fixed".
Definition DEFAULT_CHUNK_SIZE : Z := 256.
Definition DEFAULT_N_SENTENCES : Z := 5.
Definition BATCH_SIZE : Z := 1.
Definition DEFAULT_LONG_LATE_CHUNKING_OVERLAP_SIZE : Z := 256.
Definition DEFAULT_LONG_LATE_CHUNKING_EMBED_SIZE : Z := 8192.

(** [from m import *]: bind every exported name, in order. *)
Definition import_star (exports : list (string * pyval)) (ns : kwargs) : kwargs :=
  foldl (λ ns kv, <[kv.1 := kv.2]> ns) ns exports.

(** [globals()] when [main] runs: the module's namespace after its
    top-level statements ran in order (a later binding of a name replaces
    an earlier one). *)
Definition globals (w : World) : kwargs :=
  <["main" := VObj "run_chunked_eval.main"]>
  (<["DEFAULT_LONG_LATE_CHUNKING_EMBED_SIZE" := VInt DEFAULT_LONG_LATE_CHUNKING_EMBED_SIZE]>
  (<["DEFAULT_LONG_LATE_CHUNKING_OVERLAP_SIZE" := VInt DEFAULT_LONG_LATE_CHUNKING_OVERLAP_SIZE]>
  (<["BATCH_SIZE" := VInt BATCH_SIZE]>
  (<["DEFAULT_N_SENTENCES" := VInt DEFAULT_N_SENTENCES]>
  (<["DEFAULT_CHUNK_SIZE" := VInt DEFAULT_CHUNK_SIZE]>
  (<["DEFAULT_CHUNKING_STRATEGY" := VStr DEFAULT_CHUNKING_STRATEGY]>
  (<["load_model" := VObj "chunked_pooling.wrappers.load_model"]>
  (import_star (star_exports w)
  (<["AutoTokenizer" := VObj "transformers.AutoTokenizer"]>
  (<["AutoModel" := VObj "transformers.AutoModel"]>
  (<["MTEB" := VObj "mteb.MTEB"]>
  (<["torch" := VObj "torch"]>
  (<["click" := VObj "click"]>
  (module_dunders w)))))))))))))).

Definition globals_ : M kwargs := λ w log, (log, Ok (globals w)).

(** The library calls of [main]. *)
Definition print (s : string) : M unit :=
  request (EPrint s) (λ _ _, Ok ()).
Definition load_model (model_name : string) : M (pyval * pyval) :=
  request (ELoadModel model_name) (λ w log, on_load_model w log model_name).
Definition AutoTokenizer_from_pretrained (name : string) (kw : kwargs) : M pyval :=
  request (EFromPretrained name kw) (λ w log, on_from_pretrained w log name kw).
Definition torch_cuda_is_available : M bool :=
  request ECudaIsAvailable on_cuda_is_available.
Definition model_cuda (model : pyval) : M pyval :=
  request (EModelCuda model) (λ w log, on_model_cuda w log model).
Definition model_eval (model : pyval) : M unit :=
  request (EModelEval model) (λ w log, on_model_eval w log model).
Definition call (callee : pyval) (kw : kwargs) : M pyval :=
  request (ECall callee kw) (λ w log, on_call w log callee kw).
Definition MTEB (kw : kwargs) : M pyval :=
  request (EMTEB kw) (λ w log, on_MTEB w log kw).
Definition evaluation_run (evaluation model : pyval) (kw : kwargs) : M unit :=
  request (ERun evaluation model kw) (λ w log, on_run w log evaluation model kw).

(** The parameters click passes to [main]: one per option.  Options
    declared with [type=int] arrive as integers, the others as strings;
    the two options whose default is [None] may be absent. *)
Record main_args : Type := {
  model_name : string;
  strategy : string;
  task_name : string;
  eval_split : string;
  chunking_model : option string;
  truncate_max_length : option Z;
  chunk_size : Z;
  n_sentences : Z;
  long_late_chunking_embed_size : Z;
  long_late_chunking_overlap_size : Z;
}.

(** [x if x else y] for an optional string: [None] and the empty string
    are falsy. *)
Definition if_truthy_else (x : option string) (y : string) : string :=
  match x with
  | Some s => if String.eqb s "" then y else s
  | None => y
  end.

Definition notice : string :=
  "Long Late Chunking algorithm will be disabled because truncate max length is defined, hence documents are truncated.".

Definition assert_msg : string :=
  "Define either long late chunking or truncation to handle documents.".

Definition main (a : main_args) : M unit :=
  task_cls ← try_except
    (g ← globals_; getitem g (task_name a))
    (λ _, raise (ValueError ("Unknown task name: " +:+ task_name a)));
  long_late_chunking_embed_size ←
    (if is_not_None (truncate_max_length a)
        && (long_late_chunking_embed_size a >? 0)
     then _ ← print notice; mret 0
     else mret (long_late_chunking_embed_size a));
  _ ← assert_ ((long_late_chunking_embed_size >? 0)
               || is_not_None (truncate_max_length a)) assert_msg;
  '(model, has_instructions) ← load_model (model_name a);
  tokenizer ← AutoTokenizer_from_pretrained (model_name a)
                {[ "trust_remote_code" := VBool true ]};
  let chunking_args : kwargs := list_to_map [
    ("chunk_size", VInt (chunk_size a));
    ("n_sentences", VInt (n_sentences a));
    ("chunking_strategy", VStr (strategy a));
    ("model_has_instructions", has_instructions);
    ("embedding_model_name", VStr (if_truthy_else (chunking_model a) (model_name a)))
  ] in
  available ← torch_cuda_is_available;
  model ← (if available : bool then model_cuda model else mret model);
  _ ← model_eval model;
  (* Evaluate with late chunking *)
  task ← call task_cls (call_kwargs [
    ("chunked_pooling_enabled", VBool true);
    ("tokenizer", tokenizer);
    ("prune_size", VNone);
    ("truncate_max_length", of_int_opt (truncate_max_length a));
    ("long_late_chunking_embed_size", VInt long_late_chunking_embed_size);
    ("long_late_chunking_overlap_size", VInt (long_late_chunking_overlap_size a))
  ] chunking_args);
  let tasks := VList [task] in
  evaluation ← MTEB (call_kwargs [
    ("tasks", tasks);
    ("chunked_pooling_enabled", VBool true);
    ("tokenizer", tokenizer);
    ("prune_size", VNone)
  ] chunking_args);
  _ ← evaluation_run evaluation model (call_kwargs [
    ("output_folder", VStr "results-chunked-pooling");
    ("eval_splits", VList [VStr (eval_split a)]);
    ("overwrite_results", VBool true);
    ("batch_size", VInt BATCH_SIZE);
    ("encode_kwargs", VDict [("batch_size", VInt BATCH_SIZE)])
  ] ∅);
  (* Encode without late chunking *)
  task ← call task_cls (call_kwargs [
    ("chunked_pooling_enabled", VBool false);
    ("tokenizer", tokenizer);
    ("prune_size", VNone);
    ("truncate_max_length", of_int_opt (truncate_max_length a))
  ] chunking_args);
  let tasks := VList [task] in
  evaluation ← MTEB (call_kwargs [
    ("tasks", tasks);
    ("chunked_pooling_enabled", VBool false);
    ("tokenizer", tokenizer);
    ("prune_size", VNone)
  ] chunking_args);
  evaluation_run evaluation model (call_kwargs [
    ("output_folder", VStr "results-normal-pooling");
    ("eval_splits", VList [VStr (eval_split a)]);
    ("overwrite_results", VBool true);
    ("batch_size", VInt BATCH_SIZE);
    ("encode_kwargs", VDict [("batch_size", VInt BATCH_SIZE)])
  ] ∅).

(** One invocation: [main] run in world [w] from an empty log. *)
Definition invoke (w : World) (a : main_args) : list event * result unit :=
  main a w [].

(** ** The command line *)

Inductive param_type : Type := STRING | INT.

(** One [@click.option(...)] decorator: the flag and the keywords written
    in the source ([None] where the keyword is not written). *)
Record click_option : Type := {
  opt_decl : string;
  opt_default : option pyval;
  opt_type : option param_type;
  opt_required : option bool;
}.

Definition main_options : list click_option := [
  {| opt_decl := "--model-name";
     opt_default := Some (VStr "jinaai/jina-embeddings-v2-small-en");
     opt_type := None; opt_required := None |};
  {| opt_decl := "--strategy";
     opt_default := Some (VStr DEFAULT_CHUNKING_STRATEGY);
     opt_type := None; opt_required := None |};
  {| opt_decl := "--task-name";
     opt_default := Some (VStr "SciFactChunked");
     opt_type := None; opt_required := None |};
  {| opt_decl := "--eval-split";
     opt_default := Some (VStr "test");
     opt_type := None; opt_required := None |};
  {| opt_decl := "--chunking-model";
     opt_default := Some VNone;
     opt_type := None; opt_required := Some false |};
  {| opt_decl := "--truncate-max-length";
     opt_default := Some VNone;
     opt_type := Some INT; opt_required := None |};
  {| opt_decl := "--chunk-size";
     opt_default := Some (VInt DEFAULT_CHUNK_SIZE);
     opt_type := Some INT; opt_required := None |};
  {| opt_decl := "--n-sentences";
     opt_default := Some (VInt DEFAULT_N_SENTENCES);
     opt_type := Some INT; opt_required := None |};
  {| opt_decl := "--long-late-chunking-embed-size";
     opt_default := Some (VInt DEFAULT_LONG_LATE_CHUNKING_EMBED_SIZE);
     opt_type := Some INT; opt_required := None |};
  {| opt_decl := "--long-late-chunking-overlap-size";
     opt_default := Some (VInt DEFAULT_LONG_LATE_CHUNKING_OVERLAP_SIZE);
     opt_type := Some INT; opt_required := None |}
].

(** click names the parameter after the flag: the leading dashes dropped,
    the others turned into underscores. *)
Fixpoint dashes_to_underscores (s : string) : string :=
  match s with
  | EmptyString => EmptyString
  | String c s' =>
      String (if Ascii.eqb c "-" then "_"%char else c) (dashes_to_underscores s')
  end.

Definition param_name (decl : string) : string :=
  dashes_to_underscores (String.substring 2 (String.length decl - 2)%nat decl).

(** click's keyword defaults: an option is not required and its default
    is [None] unless the decorator says otherwise. *)
Definition is_required (o : click_option) : bool := default false (opt_required o).
Definition default_value (o : click_option) : pyval := default VNone (opt_default o).

#[global] Instance result_ret : MRet result := λ A a, Ok a.
#[global] Instance result_bind : MBind result := λ A B k r,
  match r with
  | Ok a => k a
  | Raise e => Raise e
  end.

(** The value click passes for an option, from the values given on the
    command line (already converted, keyed by parameter name). *)
Definition option_value (given : kwargs) (o : click_option) : result pyval :=
  match given !! param_name (opt_decl o) with
  | Some v => Ok v
  | None =>
      if is_required o
      then Raise (OtherError "click.MissingParameter" (opt_decl o))
      else Ok (default_value o)
  end.

Definition param (given : kwargs) (name : string) : result pyval :=
  match List.find (λ o, String.eqb (param_name (opt_decl o)) name) main_options with
  | Some o => option_value given o
  | None => Raise (OtherError "TypeError" name)
  end.

Definition bad_parameter {A} : result A := Raise (OtherError "click.BadParameter" "").

Definition as_str (v : pyval) : result string :=
  match v with VStr s => Ok s | _ => bad_parameter end.
Definition as_int (v : pyval) : result Z :=
  match v with VInt z => Ok z | _ => bad_parameter end.
Definition as_opt_str (v : pyval) : result (option string) :=
  match v with VStr s => Ok (Some s) | VNone => Ok None | _ => bad_parameter end.
Definition as_opt_int (v : pyval) : result (option Z) :=
  match v with VInt z => Ok (Some z) | VNone => Ok None | _ => bad_parameter end.

(** The arguments click calls [main] with. *)
Definition click_parse (given : kwargs) : result main_args :=
  model_name ← param given "model_name" ≫= as_str;
  strategy ← param given "strategy" ≫= as_str;
  task_name ← param given "task_name" ≫= as_str;
  eval_split ← param given "eval_split" ≫= as_str;
  chunking_model ← param given "chunking_model" ≫= as_opt_str;
  truncate_max_length ← param given "truncate_max_length" ≫= as_opt_int;
  chunk_size ← param given "chunk_size" ≫= as_int;
  n_sentences ← param given "n_sentences" ≫= as_int;
  long_late_chunking_embed_size ← param given "long_late_chunking_embed_size" ≫= as_int;
  long_late_chunking_overlap_size ← param given "long_late_chunking_overlap_size" ≫= as_int;
  mret {|
    model_name := model_name;
    strategy := strategy;
    task_name := task_name;
    eval_split := eval_split;
    chunking_model := chunking_model;
    truncate_max_length := truncate_max_length;
    chunk_size := chunk_size;
    n_sentences := n_sentences;
    long_late_chunking_embed_size := long_late_chunking_embed_size;
    long_late_chunking_overlap_size := long_late_chunking_overlap_size;
  |}.

(** [main()] at the bottom of the script: parse, then run the body. *)
Definition command (w : World) (given : kwargs) : list event * result unit :=
  match click_parse given with
  | Ok a => invoke w a
  | Raise e => ([], Raise e)
  end.

(** ** Vocabulary of the statements *)

Definition exn_of {A} (r : result A) : option exn :=
  match r with
  | Ok _ => None
  | Raise e => Some e
  end.

(** The exception the world raises when asked [e] after [log], if any. *)
Definition raised (w : World) (log : list event) (e : event) : option exn :=
  match e with
  | EPrint _ => None
  | ELoadModel n => exn_of (on_load_model w log n)
  | EFromPretrained n kw => exn_of (on_from_pretrained w log n kw)
  | ECudaIsAvailable => exn_of (on_cuda_is_available w log)
  | EModelCuda m => exn_of (on_model_cuda w log m)
  | EModelEval m => exn_of (on_model_eval w log m)
  | ECall c kw => exn_of (on_call w log c kw)
  | EMTEB kw => exn_of (on_MTEB w log kw)
  | ERun ev m kw => exn_of (on_run w log ev m kw)
  end.

(** A world in which no library call ever raises. *)
Definition cooperative (w : World) : Prop :=
  ∀ log e, raised w log e = None.

(** The task name is bound in the module namespace. *)
Definition resolves (w : World) (a : main_args) (cls : pyval) : Prop :=
  globals w !! task_name a = Some cls.

(** The second validation: truncation is set or the window is positive. *)
Definition handles_documents (a : main_args) : Prop :=
  is_Some (truncate_max_length a) ∨ 0 < long_late_chunking_embed_size a.

Definition task_calls (log : list event) : list (pyval * kwargs) :=
  omap (λ e, match e with ECall c kw => Some (c, kw) | _ => None end) log.
Definition mteb_calls (log : list event) : list kwargs :=
  omap (λ e, match e with EMTEB kw => Some kw | _ => None end) log.
Definition runs (log : list event) : list (pyval * pyval * kwargs) :=
  omap (λ e, match e with ERun ev m kw => Some (ev, m, kw) | _ => None end) log.

Definition is_load (e : event) : bool :=
  match e with ELoadModel _ => true | _ => false end.
Definition is_run (e : event) : bool :=
  match e with ERun _ _ _ => true | _ => false end.


(** The dict [chunking_args] that [main] builds. *)
Definition chunking_args_of (a : main_args) (has_instructions : pyval) : kwargs :=
  list_to_map [
    ("chunk_size", VInt (chunk_size a));
    ("n_sentences", VInt (n_sentences a));
    ("chunking_strategy", VStr (strategy a));
    ("model_has_instructions", has_instructions);
    ("embedding_model_name", VStr (if_truthy_else (chunking_model a) (model_name a)))
  ].

(** ** Sample worlds and invocations *)

(** A world where every call returns: objects are numbered by the length
    of the log at their creation, and there is no GPU. *)
Definition calm (exports : list (string * pyval)) : World := {|
  module_dunders := {[ "__name__" := VStr "__main__" ]};
  star_exports := exports;
  on_load_model := λ log _, Ok (VRef (length log), VBool false);
  on_from_pretrained := λ log _ _, Ok (VRef (length log));
  on_cuda_is_available := λ _, Ok false;
  on_model_cuda := λ _ m, Ok m;
  on_model_eval := λ _ _, Ok ();
  on_call := λ log _ _, Ok (VRef (length log));
  on_MTEB := λ log _, Ok (VRef (length log));
  on_run := λ _ _ _ _, Ok ();
|}.

Definition SciFactChunked : pyval :=
  VObj "chunked_pooling.chunked_eval_tasks.SciFactChunked".

Definition sample_world : World := calm [("SciFactChunked", SciFactChunked)].

(** The same world, except that the model cannot be loaded. *)
Definition offline_world : World := {|
  module_dunders := module_dunders sample_world;
  star_exports := star_exports sample_world;
  on_load_model := λ _ _, Raise (OtherError "OSError" "no network");
  on_from_pretrained := on_from_pretrained sample_world;
  on_cuda_is_available := on_cuda_is_available sample_world;
  on_model_cuda := on_model_cuda sample_world;
  on_model_eval := on_model_eval sample_world;
  on_call := on_call sample_world;
  on_MTEB := on_MTEB sample_world;
  on_run := on_run sample_world;
|}.

(** What [main] receives when no flag is given. *)
Definition default_args : main_args := {|
  model_name := "jinaai/jina-embeddings-v2-small-en";
  strategy := DEFAULT_CHUNKING_STRATEGY;
  task_name := "SciFactChunked";
  eval_split := "test";
  chunking_model := None;
  truncate_max_length := None;
  chunk_size := DEFAULT_CHUNK_SIZE;
  n_sentences := DEFAULT_N_SENTENCES;
  long_late_chunking_embed_size := DEFAULT_LONG_LATE_CHUNKING_EMBED_SIZE;
  long_late_chunking_overlap_size := DEFAULT_LONG_LATE_CHUNKING_OVERLAP_SIZE;
|}.

Definition with_task (name : string) (a : main_args) : main_args := {|
  model_name := model_name a;
  strategy := strategy a;
  task_name := name;
  eval_split := eval_split a;
  chunking_model := chunking_model a;
  truncate_max_length := truncate_max_length a;
  chunk_size := chunk_size a;
  n_sentences := n_sentences a;
  long_late_chunking_embed_size := long_late_chunking_embed_size a;
  long_late_chunking_overlap_size := long_late_chunking_overlap_size a;
|}.

Definition with_limits (truncate : option Z) (window : Z) (a : main_args) : main_args := {|
  model_name := model_name a;
  strategy := strategy a;
  task_name := task_name a;
  eval_split := eval_split a;
  chunking_model := chunking_model a;
  truncate_max_length := truncate;
  chunk_size := chunk_size a;
  n_sentences := n_sentences a;
  long_late_chunking_embed_size := window;
  long_late_chunking_overlap_size := long_late_chunking_overlap_size a;
|}.

(** The test of lines 87-89, the window [main] goes on with, and what it
    has printed by then. *)
Definition truncation_wins (a : main_args) : bool :=
  is_not_None (truncate_max_length a) && (long_late_chunking_embed_size a >? 0).
Definition effective_window (a : main_args) : Z :=
  if truncation_wins a then 0 else long_late_chunking_embed_size a.
Definition notice_log (a : main_args) : list event :=
  if truncation_wins a then [EPrint notice] else [].

(** The keyword arguments of the calls of [main], by call site. *)
Definition chunked_task_kwargs (a : main_args) (tokenizer has_instructions : pyval) : kwargs :=
  call_kwargs [
    ("chunked_pooling_enabled", VBool true);
    ("tokenizer", tokenizer);
    ("prune_size", VNone);
    ("truncate_max_length", of_int_opt (truncate_max_length a));
    ("long_late_chunking_embed_size", VInt (effective_window a));
    ("long_late_chunking_overlap_size", VInt (long_late_chunking_overlap_size a))
  ] (chunking_args_of a has_instructions).

Definition normal_task_kwargs (a : main_args) (tokenizer has_instructions : pyval) : kwargs :=
  call_kwargs [
    ("chunked_pooling_enabled", VBool false);
    ("tokenizer", tokenizer);
    ("prune_size", VNone);
    ("truncate_max_length", of_int_opt (truncate_max_length a))
  ] (chunking_args_of a has_instructions).

Definition mteb_kwargs (a : main_args) (flag : bool)
    (task tokenizer has_instructions : pyval) : kwargs :=
  call_kwargs [
    ("tasks", VList [task]);
    ("chunked_pooling_enabled", VBool flag);
    ("tokenizer", tokenizer);
    ("prune_size", VNone)
  ] (chunking_args_of a has_instructions).

Definition run_kwargs (a : main_args) (folder : string) : kwargs :=
  call_kwargs [
    ("output_folder", VStr folder);
    ("eval_splits", VList [VStr (eval_split a)]);
    ("overwrite_results", VBool true);
    ("batch_size", VInt BATCH_SIZE);
    ("encode_kwargs", VDict [("batch_size", VInt BATCH_SIZE)])
  ] ∅.

(** ** A program logic for [M] *)

(** [hoare w P m Q E]: run in [w] from a log satisfying [P], [m] ends with
    a log and a value satisfying [Q], or with a log and an exception
    satisfying [E]. *)
Definition hoare {A} (w : World) (P : list event → Prop) (m : M A)
    (Q : list event → A → Prop) (E : list event → exn → Prop) : Prop :=
  ∀ log log' r, m w log = (log', r) → P log →
    match r with
    | Ok a => Q log' a
    | Raise e => E log' e
    end.

(** [m] keeps [I] true of the log, however it ends. *)
Definition invariant {A} (w : World) (I : list event → Prop) (m : M A) : Prop :=
  hoare w I m (λ log _, I log) (λ log _, I log).

(** No call recorded in the log raised. *)
Definition clean (w : World) (log : list event) : Prop :=
  ∀ before e after, log = before ++ e :: after → raised w before e = None.

(** The last call of the log raised [x], and no call before it raised. *)
Definition last_raised (w : World) (log : list event) (x : exn) : Prop :=
  ∃ before e, log = before ++ [e] ∧ clean w before ∧ raised w before e = Some x.

(** The exceptions [main] raises itself. *)
Definition own_error (a : main_args) (x : exn) : Prop :=
  x = ValueError ("Unknown task name: " +:+ task_name a) ∨ x = AssertionError assert_msg.

(** The calls [main] can make: one constructor per call site, with the
    arguments the call site passes. *)
Inductive main_event (w : World) (a : main_args) : event → Prop :=
| call_notice :
    truncation_wins a = true → main_event w a (EPrint notice)
| call_load_model :
    main_event w a (ELoadModel (model_name a))
| call_from_pretrained :
    main_event w a
      (EFromPretrained (model_name a) {[ "trust_remote_code" := VBool true ]})
| call_cuda_is_available :
    main_event w a ECudaIsAvailable
| call_model_cuda model :
    main_event w a (EModelCuda model)
| call_model_eval model :
    main_event w a (EModelEval model)
| call_chunked_task cls tokenizer has_instructions :
    resolves w a cls →
    main_event w a (ECall cls (chunked_task_kwargs a tokenizer has_instructions))
| call_normal_task cls tokenizer has_instructions :
    resolves w a cls →
    main_event w a (ECall cls (normal_task_kwargs a tokenizer has_instructions))
| call_MTEB flag task tokenizer has_instructions :
    main_event w a (EMTEB (mteb_kwargs a flag task tokenizer has_instructions))
| call_run evaluation model folder :
    folder = "results-chunked-pooling" ∨ folder = "results-normal-pooling" →
    main_event w a (ERun evaluation model (run_kwargs a folder)).

(** What may follow the model load in a log: no other load, and
    evaluation runs on [model] only. *)
Definition after_load (model : pyval) (e : event) : Prop :=
  is_load e = false ∧ ∀ ev m kw, e = ERun ev m kw → m = model.

(** Between the load and the moment [main] settles its [model] variable:
    neither a load nor a run. *)
Definition before_runs (e : event) : Prop :=
  is_load e = false ∧ is_run e = false.

(** The log starts with [pre], and what follows satisfies [ψ]. *)
Definition extends (pre : list event) (ψ : event → Prop) (log : list event) : Prop :=
  ∃ rest, log = pre ++ rest ∧ Forall ψ rest.

Definition with_chunking_model (name : option string) (a : main_args) : main_args := {|
  model_name := model_name a;
  strategy := strategy a;
  task_name := task_name a;
  eval_split := eval_split a;
  chunking_model := name;
  truncate_max_length := truncate_max_length a;
  chunk_size := chunk_size a;
  n_sentences := n_sentences a;
  long_late_chunking_embed_size := long_late_chunking_embed_size a;
  long_late_chunking_overlap_size := long_late_chunking_overlap_size a;
|}.

(** Sample invocations: no way to handle long documents; truncation
    together with a window; a task name that does not exist; a separate
    chunking model. *)
Definition unset_closed_window : main_args := with_limits None 0 default_args.
Definition truncating : main_args := with_limits (Some 512) 8192 default_args.
Definition misnamed (a : main_args) : main_args := with_task "NoSuchTask" a.
Definition semantic : main_args :=
  with_chunking_model (Some "jinaai/jina-embeddings-v2-base-en") default_args.

(** How a failing invocation may end: with an error of [main] itself and no
    failed call behind it, or with the exception of its last call. *)
Definition fails_faithfully (w : World) (a : main_args) (log : list event) (x : exn) : Prop :=
  (own_error a x ∧ clean w log) ∨ last_raised w log x.

Definition faithful {A} (w : World) (a : main_args) (m : M A) : Prop :=
  hoare w (clean w) m (λ log _, clean w log) (fails_faithfully w a).

(** The invocation got past both validations: after the notice, if any,
    the model was loaded, and what follows obeys [after_load]. *)
Definition proceeds (a : main_args) (log : list event) : Prop :=
  ∃ model,
    extends (notice_log a ++ [ELoadModel (model_name a)]) (after_load model) log.

(** ** The control flow of [main] once both validations have passed *)

(** Where [main] stands: the call it is about to make, with the variables
    that are live there ([chunked] tells the first evaluation from the
    second). *)
Inductive point : Type :=
| PLoad
| PTokenizer (model has_instructions : pyval)
| PCudaIsAvailable (model has_instructions tokenizer : pyval)
| PCuda (model has_instructions tokenizer : pyval)
| PEval (model has_instructions tokenizer : pyval)
| PTask (chunked : bool) (model has_instructions tokenizer : pyval)
| PMTEB (chunked : bool) (model has_instructions tokenizer task : pyval)
| PRun (chunked : bool) (model has_instructions tokenizer evaluation : pyval)
| PDone.

Definition output_folder (chunked : bool) : string :=
  if chunked then "results-chunked-pooling" else "results-normal-pooling".

Definition task_kwargs (a : main_args) (chunked : bool)
    (tokenizer has_instructions : pyval) : kwargs :=
  if chunked then chunked_task_kwargs a tokenizer has_instructions
  else normal_task_kwargs a tokenizer has_instructions.

(** The call made at a point. *)
Definition next_call (a : main_args) (cls : pyval) (p : point) : option event :=
  match p with
  | PLoad => Some (ELoadModel (model_name a))
  | PTokenizer _ _ =>
      Some (EFromPretrained (model_name a) {[ "trust_remote_code" := VBool true ]})
  | PCudaIsAvailable _ _ _ => Some ECudaIsAvailable
  | PCuda model _ _ => Some (EModelCuda model)
  | PEval model _ _ => Some (EModelEval model)
  | PTask chunked _ hi tok => Some (ECall cls (task_kwargs a chunked tok hi))
  | PMTEB chunked _ hi tok task => Some (EMTEB (mteb_kwargs a chunked task tok hi))
  | PRun chunked model _ _ evaluation =>
      Some (ERun evaluation model (run_kwargs a (output_folder chunked)))
  | PDone => None
  end.

(** [advance w a cls p log p']: asked after [log], the call of [p] returns
    and [main] moves on to [p']. *)
Inductive advance (w : World) (a : main_args) (cls : pyval) :
    point → list event → point → Prop :=
| advance_load log model hi :
    on_load_model w log (model_name a) = Ok (model, hi) →
    advance w a cls PLoad log (PTokenizer model hi)
| advance_tokenizer log model hi tok :
    on_from_pretrained w log (model_name a) {[ "trust_remote_code" := VBool true ]}
      = Ok tok →
    advance w a cls (PTokenizer model hi) log (PCudaIsAvailable model hi tok)
| advance_available log model hi tok :
    on_cuda_is_available w log = Ok true →
    advance w a cls (PCudaIsAvailable model hi tok) log (PCuda model hi tok)
| advance_unavailable log model hi tok :
    on_cuda_is_available w log = Ok false →
    advance w a cls (PCudaIsAvailable model hi tok) log (PEval model hi tok)
| advance_cuda log model hi tok model' :
    on_model_cuda w log model = Ok model' →
    advance w a cls (PCuda model hi tok) log (PEval model' hi tok)
| advance_eval log model hi tok :
    on_model_eval w log model = Ok () →
    advance w a cls (PEval model hi tok) log (PTask true model hi tok)
| advance_task log chunked model hi tok task :
    on_call w log cls (task_kwargs a chunked tok hi) = Ok task →
    advance w a cls (PTask chunked model hi tok) log (PMTEB chunked model hi tok task)
| advance_MTEB log chunked model hi tok task evaluation :
    on_MTEB w log (mteb_kwargs a chunked task tok hi) = Ok evaluation →
    advance w a cls (PMTEB chunked model hi tok task) log
      (PRun chunked model hi tok evaluation)
| advance_chunked_run log model hi tok evaluation :
    on_run w log evaluation model (run_kwargs a (output_folder true)) = Ok () →
    advance w a cls (PRun true model hi tok evaluation) log (PTask false model hi tok)
| advance_normal_run log model hi tok evaluation :
    on_run w log evaluation model (run_kwargs a (output_folder false)) = Ok () →
    advance w a cls (PRun false model hi tok evaluation) log PDone.

(** The points [main] reaches, with the log at each. *)
Inductive reach (w : World) (a : main_args) (cls : pyval) : point → list event → Prop :=
| reach_start :
    reach w a cls PLoad (notice_log a)
| reach_step p log p' e :
    reach w a cls p log →
    next_call a cls p = Some e →
    advance w a cls p log p' →
    reach w a cls p' (log ++ [e]).

(** How an invocation that passed the validations ends: at [PDone] with
    every call answered, or at the first call that raises. *)
Definition stops (w : World) (a : main_args) (cls : pyval)
    (final : list event * result unit) : Prop :=
  ∃ p log, reach w a cls p log
    ∧ ((p = PDone ∧ final = (log, Ok ()))
       ∨ ∃ e x, next_call a cls p = Some e ∧ raised w log e = Some x
                ∧ final = (log ++ [e], Raise x)).

(** [Φ] holds of every call of the log, given the log before the call. *)
Definition hist (Φ : list event → event → Prop) (log : list event) : Prop :=
  ∀ i e, log !! i = Some e → Φ (take i log) e.

(** The call [e] is in the log, and the log before it satisfies [Ψ]. *)
Definition asked (log : list event) (e : event) (Ψ : list event → Prop) : Prop :=
  ∃ k, log !! k = Some e ∧ Ψ (take k log).

(** A world with a GPU: [torch.cuda.is_available()] is [True] and
    [model.cuda()] returns the model it is called on. *)
Definition accelerated_world : World := {|
  module_dunders := module_dunders sample_world;
  star_exports := star_exports sample_world;
  on_load_model := on_load_model sample_world;
  on_from_pretrained := on_from_pretrained sample_world;
  on_cuda_is_available := λ _, Ok true;
  on_model_cuda := on_model_cuda sample_world;
  on_model_eval := on_model_eval sample_world;
  on_call := on_call sample_world;
  on_MTEB := on_MTEB sample_world;
  on_run := on_run sample_world;
|}.

(** The flags that spell out a configuration: every option given, except
    the two whose value is [None]. *)
Definition given_of (a : main_args) : kwargs :=
  list_to_map (
    [("model_name", VStr (model_name a));
     ("strategy", VStr (strategy a));
     ("task_name", VStr (task_name a));
     ("eval_split", VStr (eval_split a));
     ("chunk_size", VInt (chunk_size a));
     ("n_sentences", VInt (n_sentences a));
     ("long_late_chunking_embed_size", VInt (long_late_chunking_embed_size a));
     ("long_late_chunking_overlap_size", VInt (long_late_chunking_overlap_size a))]
    ++ match chunking_model a with
       | Some s => [("chunking_model", VStr s)]
       | None => []
       end
    ++ match truncate_max_length a with
       | Some t => [("truncate_max_length", VInt t)]
       | None => []
       end).

(** The names the script itself binds at module level. *)
Definition module_names : list string :=
  ["click"; "torch"; "MTEB"; "AutoModel"; "AutoTokenizer"; "load_model";
   "DEFAULT_CHUNKING_STRATEGY"; "DEFAULT_CHUNK_SIZE"; "DEFAULT_N_SENTENCES";
   "BATCH_SIZE"; "DEFAULT_LONG_LATE_CHUNKING_OVERLAP_SIZE";
   "DEFAULT_LONG_LATE_CHUNKING_EMBED_SIZE"; "main"].

(** * Proofs *)

(** ** Rules of the program logic *)

Section Rules.
Context (w : World).

Lemma hoare_ret {A} (a : A) (P : list event → Prop) Q E :
  (∀ log, P log → Q log a) → hoare w P (mret a) Q E.
Proof. intros H log log' r [= <- <-] HP. by apply H. Qed.

Lemma hoare_raise {A} (x : exn) (P : list event → Prop)
    (Q : list event → A → Prop) E :
  (∀ log, P log → E log x) → hoare w P (raise x) Q E.
Proof. intros H log log' r [= <- <-] HP. by apply H. Qed.

Lemma hoare_bind {A B} (m : M A) (k : A → M B) P R Q E :
  hoare w P m R E →
  (∀ a, hoare w (λ log, R log a) (k a) Q E) →
  hoare w P (m ≫= k) Q E.
Proof.
  intros Hm Hk log log' r Hrun HP.
  unfold mbind, M_bind in Hrun.
  destruct (m w log) as [log1 [a|x]] eqn:Em.
  - apply (Hk a log1 log' r Hrun). apply (Hm log log1 (Ok a) Em HP).
  - injection Hrun as <- <-. apply (Hm log log1 (Raise x) Em HP).
Qed.

Lemma hoare_request {A} (e : event) (answer : World → list event → result A)
    (P : list event → Prop) Q E :
  (∀ log a, P log → answer w log = Ok a → Q (log ++ [e]) a) →
  (∀ log x, P log → answer w log = Raise x → E (log ++ [e]) x) →
  hoare w P (request e answer) Q E.
Proof.
  intros HQ HE log log' r [= <- <-] HP.
  destruct (answer w log) eqn:Ea; [by apply HQ | by apply HE].
Qed.

Lemma hoare_if {A} (b : bool) (m1 m2 : M A) P Q E :
  (b = true → hoare w P m1 Q E) →
  (b = false → hoare w P m2 Q E) →
  hoare w P (if b then m1 else m2) Q E.
Proof. destruct b; auto. Qed.

(** The statement that resolves the task class touches no library. *)
Lemma hoare_task_lookup (a : main_args) (P : list event → Prop) Q E :
  (∀ log cls, P log → globals w !! task_name a = Some cls → Q log cls) →
  (∀ log, P log → globals w !! task_name a = None →
     E log (ValueError ("Unknown task name: " +:+ task_name a))) →
  hoare w P
    (try_except (g ← globals_; getitem g (task_name a))
       (λ _, raise (ValueError ("Unknown task name: " +:+ task_name a))))
    Q E.
Proof.
  intros HQ HE log log' r Hrun HP. revert Hrun.
  cbv [try_except mbind M_bind globals_ getitem mret M_ret raise].
  destruct (globals w !! task_name a) as [cls|] eqn:Eg; intros [= <- <-]; auto.
Qed.

(** A postcondition that fixes the value lets the rest of the program
    be verified for that value only. *)
Lemma hoare_bind_pure {A B} (m : M A) (k : A → M B) P P' (ψ : A → Prop) Q E :
  hoare w P m (λ log a, P' log ∧ ψ a) E →
  (∀ a, ψ a → hoare w P' (k a) Q E) →
  hoare w P (m ≫= k) Q E.
Proof.
  intros Hm Hk. eapply hoare_bind; [exact Hm |].
  intros a log log' r Hrun [HP Hψ]. by apply (Hk a Hψ log log' r Hrun).
Qed.

Lemma hoare_conseq {A} (m : M A) (P P' : list event → Prop) Q Q' E E' :
  hoare w P' m Q' E' →
  (∀ log, P log → P' log) →
  (∀ log a, Q' log a → Q log a) →
  (∀ log x, E' log x → E log x) →
  hoare w P m Q E.
Proof.
  intros H HP HQ HE log log' r Hrun Hlog.
  specialize (H log log' r Hrun (HP _ Hlog)). destruct r; auto.
Qed.

(** *** Invariants of the log *)

Lemma invariant_ret {A} (a : A) I : invariant w I (mret a).
Proof. by apply hoare_ret. Qed.

Lemma invariant_raise {A} (x : exn) I : invariant w I (raise x : M A).
Proof. by apply hoare_raise. Qed.

Lemma invariant_bind {A B} (m : M A) (k : A → M B) I :
  invariant w I m → (∀ a, invariant w I (k a)) → invariant w I (m ≫= k).
Proof. intros Hm Hk. eapply hoare_bind; [exact Hm | exact Hk]. Qed.

Lemma invariant_if {A} (b : bool) (m1 m2 : M A) I :
  invariant w I m1 → invariant w I m2 → invariant w I (if b then m1 else m2).
Proof. by destruct b. Qed.

Lemma invariant_assert (b : bool) (msg : string) I : invariant w I (assert_ b msg).
Proof. apply invariant_if; [apply invariant_ret | apply invariant_raise]. Qed.

Lemma invariant_task_lookup (a : main_args) I :
  invariant w I
    (try_except (g ← globals_; getitem g (task_name a))
       (λ _, raise (ValueError ("Unknown task name: " +:+ task_name a)))).
Proof. by apply hoare_task_lookup. Qed.

(** A call keeps "every logged call satisfies [φ]" when it satisfies [φ]. *)
Lemma invariant_request {A} (φ : event → Prop) (e : event)
    (answer : World → list event → result A) :
  φ e → invariant w (Forall φ) (request e answer).
Proof.
  intros He. apply hoare_request; intros log ? Hlog _;
    (apply Forall_app; split; [exact Hlog | by constructor]).
Qed.
End Rules.

(** Walk through [main], one statement at a time, leaving the calls that
    the property [φ] speaks about. *)
Ltac walk :=
  repeat first
    [ apply invariant_task_lookup
    | apply invariant_assert
    | apply invariant_ret
    | apply invariant_if
    | apply invariant_bind; [ | first [ intros [? ?] | intros ? ] ]
    | apply invariant_request ].

(** Every call [main] logs satisfies [φ], once the calls listed by [walk]
    do. *)
Lemma main_calls (w : World) (a : main_args) (φ : event → Prop) :
  invariant w (Forall φ) (main a) → Forall φ (invoke w a).1.
Proof.
  intros H. unfold invoke. destruct (main a w []) as [log r] eqn:Hrun.
  specialize (H [] log r Hrun (Forall_nil_2 _)). by destruct r.
Qed.


(** Recognise the call site of a logged call. *)
Ltac site :=
  lazymatch goal with
  | |- main_event _ _ (EPrint _) => by apply call_notice
  | |- main_event _ _ (ELoadModel _) => apply call_load_model
  | |- main_event _ _ (EFromPretrained _ _) => apply call_from_pretrained
  | |- main_event _ _ ECudaIsAvailable => apply call_cuda_is_available
  | |- main_event _ _ (EModelCuda _) => apply call_model_cuda
  | |- main_event _ _ (EModelEval _) => apply call_model_eval
  | |- main_event ?w ?a (ECall ?cls (call_kwargs
         (("chunked_pooling_enabled", VBool true) :: ("tokenizer", ?tok) :: _)
         (list_to_map (_ :: _ :: _ :: ("model_has_instructions", ?hi) :: _)))) =>
      exact (call_chunked_task w a cls tok hi ltac:(assumption))
  | |- main_event ?w ?a (ECall ?cls (call_kwargs
         (("chunked_pooling_enabled", VBool false) :: ("tokenizer", ?tok) :: _)
         (list_to_map (_ :: _ :: _ :: ("model_has_instructions", ?hi) :: _)))) =>
      exact (call_normal_task w a cls tok hi ltac:(assumption))
  | |- main_event ?w ?a (EMTEB (call_kwargs
         (("tasks", VList [?task]) :: ("chunked_pooling_enabled", VBool ?flag)
            :: ("tokenizer", ?tok) :: _)
         (list_to_map (_ :: _ :: _ :: ("model_has_instructions", ?hi) :: _)))) =>
      exact (call_MTEB w a flag task tok hi)
  | |- main_event ?w ?a (ERun ?ev ?m (call_kwargs (("output_folder", VStr ?folder) :: _) _)) =>
      exact (call_run w a ev m folder ltac:(auto))
  end.

(** Every call of an invocation is one of the call sites of [main], made
    with the class the task name resolved to and the window left by the
    check of lines 87-89. *)
Lemma invoke_events (w : World) (a : main_args) :
  Forall (main_event w a) (invoke w a).1.
Proof.
  apply main_calls. unfold main, invariant.
  apply hoare_bind_pure with (P' := Forall (main_event w a)) (ψ := resolves w a).
  { apply hoare_task_lookup; auto. }
  intros cls Hcls.
  apply hoare_bind_pure with (P' := Forall (main_event w a))
                             (ψ := λ v, v = effective_window a).
  { apply (hoare_if w (truncation_wins a)); intros Hwins.
    - eapply hoare_bind; [apply (invariant_request w (main_event w a)); by constructor |].
      intros ?. apply hoare_ret. intros log Hlog. split; [exact Hlog |].
      unfold effective_window. by rewrite Hwins.
    - apply hoare_ret. intros log Hlog. split; [exact Hlog |].
      unfold effective_window. by rewrite Hwins. }
  intros ? ->.
  walk; site.
Qed.

(** ** What the call sites pass *)

Lemma chunked_task_window a tok hi :
  chunked_task_kwargs a tok hi !! "long_late_chunking_embed_size"
  = Some (VInt (effective_window a)).
Proof. reflexivity. Qed.

Lemma chunked_task_truncate a tok hi :
  chunked_task_kwargs a tok hi !! "truncate_max_length"
  = Some (of_int_opt (truncate_max_length a)).
Proof. reflexivity. Qed.

Lemma normal_task_window a tok hi :
  normal_task_kwargs a tok hi !! "long_late_chunking_embed_size" = None.
Proof. reflexivity. Qed.

Lemma chunked_task_embedding_model a tok hi :
  chunked_task_kwargs a tok hi !! "embedding_model_name"
  = Some (VStr (if_truthy_else (chunking_model a) (model_name a))).
Proof. reflexivity. Qed.

Lemma normal_task_embedding_model a tok hi :
  normal_task_kwargs a tok hi !! "embedding_model_name"
  = Some (VStr (if_truthy_else (chunking_model a) (model_name a))).
Proof. reflexivity. Qed.

Lemma run_batch_size a folder :
  run_kwargs a folder !! "batch_size" = Some (VInt BATCH_SIZE).
Proof. reflexivity. Qed.

Lemma run_encode_kwargs a folder :
  run_kwargs a folder !! "encode_kwargs"
  = Some (VDict [("batch_size", VInt BATCH_SIZE)]).
Proof. reflexivity. Qed.

Lemma run_output_folder a folder :
  run_kwargs a folder !! "output_folder" = Some (VStr folder).
Proof. reflexivity. Qed.

(** No keyword written at a call site is a key of [chunking_args]: the
    calls with [**chunking_args] cannot fail on a repeated keyword. *)
Lemma star_keywords_fresh a hi :
  Forall (λ k, chunking_args_of a hi !! k = None)
    ["tasks"; "chunked_pooling_enabled"; "tokenizer"; "prune_size";
     "truncate_max_length"; "long_late_chunking_embed_size";
     "long_late_chunking_overlap_size"].
Proof. repeat (constructor; [reflexivity |]). constructor. Qed.

(** The calls of a kind in the log are calls of [main]. *)
Lemma task_call_site w a c kw :
  ECall c kw ∈ (invoke w a).1 →
  resolves w a c ∧ ∃ tok hi,
    kw = chunked_task_kwargs a tok hi ∨ kw = normal_task_kwargs a tok hi.
Proof.
  intros Hin. pose proof (invoke_events w a) as Hall.
  rewrite Forall_forall in Hall. specialize (Hall _ Hin).
  remember (ECall c kw) as e eqn:He.
  destruct Hall as [| | | | | | cls tok hi Hcls | cls tok hi Hcls | |];
    try discriminate He; injection He as <- <-; (split; [exact Hcls |]);
    exists tok, hi; [left | right]; reflexivity.
Qed.

Lemma run_site w a ev m kw :
  ERun ev m kw ∈ (invoke w a).1 →
  kw = run_kwargs a "results-chunked-pooling" ∨ kw = run_kwargs a "results-normal-pooling".
Proof.
  intros Hin. pose proof (invoke_events w a) as Hall.
  rewrite Forall_forall in Hall. specialize (Hall _ Hin).
  remember (ERun ev m kw) as e eqn:He.
  destruct Hall as [| | | | | | | | | ev' m' folder Hfolder]; try discriminate He.
  injection He as <- <- <-. destruct Hfolder as [-> | ->]; [left | right]; reflexivity.
Qed.

(** ** The window after the check of lines 87-89 *)

Lemma effective_window_truncating a t :
  truncate_max_length a = Some t → effective_window a ≤ 0.
Proof.
  intros Ht. unfold effective_window, truncation_wins. rewrite Ht. simpl.
  destruct (long_late_chunking_embed_size a >? 0) eqn:Hw; [lia |].
  rewrite Z.gtb_ltb, Z.ltb_ge in Hw. exact Hw.
Qed.

Lemma effective_window_forced a t :
  truncate_max_length a = Some t → 0 < long_late_chunking_embed_size a →
  truncation_wins a = true ∧ effective_window a = 0.
Proof.
  intros Ht Hw. unfold effective_window, truncation_wins. rewrite Ht. simpl.
  assert ((long_late_chunking_embed_size a >? 0) = true) as ->; [| done].
  rewrite Z.gtb_ltb. by apply Z.ltb_lt.
Qed.

(** ** The first validation: the task name *)

Lemma invoke_unresolved (w : World) (a : main_args) :
  globals w !! task_name a = None →
  invoke w a = ([], Raise (ValueError ("Unknown task name: " +:+ task_name a))).
Proof.
  intros Hnone. unfold invoke, main.
  cbv [mbind M_bind try_except globals_ getitem mret M_ret raise].
  by rewrite Hnone.
Qed.



(** The registry is the whole module namespace: whatever the star import
    brings, the names the script binds after it are in it too. *)
Lemma globals_own_names (w : World) :
  globals w !! "main" = Some (VObj "run_chunked_eval.main")
  ∧ globals w !! "BATCH_SIZE" = Some (VInt BATCH_SIZE)
  ∧ globals w !! "load_model" = Some (VObj "chunked_pooling.wrappers.load_model").
Proof.
  unfold globals. repeat split.
  - by rewrite lookup_insert_eq.
  - by do 3 (rewrite lookup_insert_ne by done); rewrite lookup_insert_eq.
  - by do 7 (rewrite lookup_insert_ne by done); rewrite lookup_insert_eq.
Qed.

Lemma import_star_lookup exports ns k :
  k ∈ exports.*1 → is_Some (import_star exports ns !! k).
Proof.
  unfold import_star. revert ns.
  induction exports as [| [k' v] exports IH] using rev_ind; intros ns Hin.
  - by apply elem_of_nil in Hin.
  - rewrite foldl_app. simpl. rewrite fmap_app, elem_of_app in Hin.
    destruct (decide (k' = k)) as [-> | Hne].
    + rewrite lookup_insert_eq. eauto.
    + rewrite lookup_insert_ne by done. apply IH.
      destruct Hin as [Hin | Hin]; [done |].
      simpl in Hin. apply list_elem_of_singleton in Hin. congruence.
Qed.

(** A name exported by [chunked_pooling.chunked_eval_tasks] resolves. *)
Lemma globals_star (w : World) (k : string) :
  k ∈ (star_exports w).*1 → is_Some (globals w !! k).
Proof.
  intros Hin. unfold globals.
  repeat match goal with
  | |- is_Some (<[?k' := _]> _ !! k) =>
      destruct (decide (k' = k)) as [<- | ?];
        [rewrite lookup_insert_eq; eauto | rewrite lookup_insert_ne by done]
  end.
  by apply import_star_lookup.
Qed.

(** ** The second validation: truncation or a window *)

(** C3, as the code has it.  When the task name resolves, truncation is
    unset and the window is 0, [main] raises the assertion error
    'Define either long late chunking or truncation to handle documents.'
    with an empty log, hence before any model or tokenizer load. *)
Theorem no_truncation_no_window (w : World) (a : main_args) (cls : pyval) :
  resolves w a cls →
  truncate_max_length a = None →
  long_late_chunking_embed_size a = 0 →
  invoke w a = ([], Raise (AssertionError assert_msg)).
Proof.
  intros Hcls Ht Hw. unfold resolves in Hcls. unfold invoke, main.
  cbv [mbind M_bind try_except globals_ getitem mret M_ret raise assert_].
  by rewrite Hcls, Ht, Hw.
Qed.

Lemma no_truncation_no_window_witness :
  resolves sample_world unset_closed_window SciFactChunked
  ∧ truncate_max_length unset_closed_window = None
  ∧ long_late_chunking_embed_size unset_closed_window = 0
  ∧ invoke sample_world unset_closed_window = ([], Raise (AssertionError assert_msg)).
Proof.
  split; [reflexivity |]. split; [reflexivity |]. split; [reflexivity |].
  apply (no_truncation_no_window sample_world unset_closed_window SciFactChunked);
    reflexivity.
Defined.

(** C3 as stated fails when the task name is unknown too: the first
    validation raises its own error before the second is reached. *)
Lemma unknown_task_hides_configuration_error :
  truncate_max_length (misnamed unset_closed_window) = None
  ∧ long_late_chunking_embed_size (misnamed unset_closed_window) = 0
  ∧ invoke sample_world (misnamed unset_closed_window)
    = ([], Raise (ValueError "Unknown task name: NoSuchTask"))
  ∧ (invoke sample_world (misnamed unset_closed_window)).2
    ≠ Raise (AssertionError assert_msg).
Proof.
  split; [reflexivity |]. split; [reflexivity |]. split; [reflexivity |].
  discriminate.
Qed.

(** ** What the task constructors and the runs receive *)

(** C5. No task constructor is ever called with both a truncation length
    and a positive long-late-chunking window: when [truncate_max_length] is
    an integer, the window passed with it is at most 0, whatever integer
    the option held (positive values are replaced by 0, others kept). *)
Theorem no_truncation_with_window (w : World) (a : main_args)
    (c : pyval) (kw : kwargs) (t z : Z) :
  ECall c kw ∈ (invoke w a).1 →
  kw !! "truncate_max_length" = Some (VInt t) →
  kw !! "long_late_chunking_embed_size" = Some (VInt z) →
  z ≤ 0.
Proof.
  intros Hin Ht Hz.
  destruct (task_call_site w a c kw Hin) as (_ & tok & hi & [-> | ->]).
  - rewrite chunked_task_truncate in Ht. rewrite chunked_task_window in Hz.
    injection Hz as <-.
    destruct (truncate_max_length a) as [t' |] eqn:Etr; [| discriminate Ht].
    by apply (effective_window_truncating a t').
  - rewrite normal_task_window in Hz. discriminate Hz.
Qed.

Lemma no_truncation_with_window_witness :
  ECall SciFactChunked (chunked_task_kwargs truncating (VRef 2) (VBool false))
    ∈ (invoke sample_world truncating).1
  ∧ chunked_task_kwargs truncating (VRef 2) (VBool false) !! "truncate_max_length"
    = Some (VInt 512)
  ∧ chunked_task_kwargs truncating (VRef 2) (VBool false)
      !! "long_late_chunking_embed_size" = Some (VInt 0)
  ∧ 0 ≤ 0.
Proof.
  assert (ECall SciFactChunked (chunked_task_kwargs truncating (VRef 2) (VBool false))
            ∈ (invoke sample_world truncating).1) as Hin.
  { apply (list_elem_of_lookup_2 _ 5%nat). reflexivity. }
  split; [exact Hin |]. split; [reflexivity |]. split; [reflexivity |].
  apply (no_truncation_with_window sample_world truncating SciFactChunked
           (chunked_task_kwargs truncating (VRef 2) (VBool false)) 512 0);
    [exact Hin | reflexivity | reflexivity].
Defined.

(** A window that is not positive is passed on as it is. *)
Example negative_window_kept :
  task_calls (invoke sample_world (with_limits (Some 5) (-3) default_args)).1
  !! 0%nat
  = Some (SciFactChunked,
          chunked_task_kwargs (with_limits (Some 5) (-3) default_args)
            (VRef 1) (VBool false))
  ∧ chunked_task_kwargs (with_limits (Some 5) (-3) default_args) (VRef 1) (VBool false)
      !! "long_late_chunking_embed_size" = Some (VInt (-3)).
Proof. split; reflexivity. Qed.

(** C9. Every evaluation run is invoked with [batch_size=1] and
    [encode_kwargs={'batch_size': 1}], whatever the options are. *)
Theorem runs_use_batch_size_1 (w : World) (a : main_args)
    (ev m : pyval) (kw : kwargs) :
  ERun ev m kw ∈ (invoke w a).1 →
  kw !! "batch_size" = Some (VInt 1)
  ∧ kw !! "encode_kwargs" = Some (VDict [("batch_size", VInt 1)]).
Proof.
  intros Hin. destruct (run_site w a ev m kw Hin) as [-> | ->];
    by rewrite run_batch_size, run_encode_kwargs.
Qed.

Lemma runs_use_batch_size_1_witness :
  ERun (VRef 5) (VRef 0) (run_kwargs default_args "results-chunked-pooling")
    ∈ (invoke sample_world default_args).1
  ∧ run_kwargs default_args "results-chunked-pooling" !! "batch_size" = Some (VInt 1)
  ∧ run_kwargs default_args "results-chunked-pooling" !! "encode_kwargs"
    = Some (VDict [("batch_size", VInt 1)]).
Proof.
  assert (ERun (VRef 5) (VRef 0) (run_kwargs default_args "results-chunked-pooling")
            ∈ (invoke sample_world default_args).1) as Hin.
  { apply (list_elem_of_lookup_2 _ 6%nat). reflexivity. }
  split; [exact Hin |].
  apply (runs_use_batch_size_1 sample_world default_args (VRef 5) (VRef 0)
           (run_kwargs default_args "results-chunked-pooling") Hin).
Defined.

(** The same through the command line: no flag changes the batch size. *)
Corollary command_batch_size (w : World) (given : kwargs) (ev m : pyval) (kw : kwargs) :
  ERun ev m kw ∈ (command w given).1 → kw !! "batch_size" = Some (VInt 1).
Proof.
  unfold command. destruct (click_parse given) as [a | x]; intros Hin.
  - destruct (run_site w a ev m kw Hin) as [-> | ->]; apply run_batch_size.
  - by apply elem_of_nil in Hin.
Qed.

Lemma if_truthy_else_spec (x : option string) (y : string) :
  (∀ s, x = Some s → s ≠ "" → if_truthy_else x y = s)
  ∧ (x = None ∨ x = Some "" → if_truthy_else x y = y).
Proof.
  split.
  - intros s -> Hs. simpl. destruct (String.eqb_spec s ""); [done | reflexivity].
  - by intros [-> | ->].
Qed.

(** C10. The [embedding_model_name] passed to a task constructor is the
    [--chunking-model] option when that is a non-empty string, and the
    [--model-name] option when it is [None] or the empty string. *)
Theorem embedding_model_name_choice (w : World) (a : main_args)
    (c : pyval) (kw : kwargs) :
  ECall c kw ∈ (invoke w a).1 →
  ∃ name, kw !! "embedding_model_name" = Some (VStr name)
    ∧ (∀ s, chunking_model a = Some s → s ≠ "" → name = s)
    ∧ (chunking_model a = None ∨ chunking_model a = Some "" → name = model_name a).
Proof.
  intros Hin. exists (if_truthy_else (chunking_model a) (model_name a)).
  split; [| apply if_truthy_else_spec].
  destruct (task_call_site w a c kw Hin) as (_ & tok & hi & [-> | ->]).
  - apply chunked_task_embedding_model.
  - apply normal_task_embedding_model.
Qed.

Lemma embedding_model_name_choice_witness :
  ECall SciFactChunked (normal_task_kwargs semantic (VRef 1) (VBool false))
    ∈ (invoke sample_world semantic).1
  ∧ ∃ name,
      normal_task_kwargs semantic (VRef 1) (VBool false) !! "embedding_model_name"
      = Some (VStr name)
      ∧ (∀ s, chunking_model semantic = Some s → s ≠ "" → name = s)
      ∧ (chunking_model semantic = None ∨ chunking_model semantic = Some ""
         → name = model_name semantic).
Proof.
  assert (ECall SciFactChunked (normal_task_kwargs semantic (VRef 1) (VBool false))
            ∈ (invoke sample_world semantic).1) as Hin.
  { apply (list_elem_of_lookup_2 _ 7%nat). reflexivity. }
  split; [exact Hin |].
  apply (embedding_model_name_choice sample_world semantic SciFactChunked
           (normal_task_kwargs semantic (VRef 1) (VBool false)) Hin).
Defined.

(** ** Exceptions of the libraries *)

Lemma clean_nil (w : World) : clean w [].
Proof. intros before e after H. by destruct before. Qed.

Lemma clean_snoc (w : World) (log : list event) (e : event) :
  clean w log → raised w log e = None → clean w (log ++ [e]).
Proof.
  intros Hlog He before e' after Heq.
  destruct after as [| last after _] using rev_ind.
  - apply app_inj_tail in Heq as [-> ->]. exact He.
  - rewrite app_comm_cons, app_assoc in Heq.
    apply app_inj_tail in Heq as [-> _]. by apply (Hlog before e' after).
Qed.

(** A log whose last call raised has no other failed call. *)
Lemma last_raised_unique (w : World) (log before after : list event) (e : event) (x y : exn) :
  last_raised w log x →
  log = before ++ e :: after → raised w before e = Some y →
  after = [] ∧ x = y.
Proof.
  intros (before' & e' & -> & Hclean & Hx) Heq Hy.
  destruct after as [| last after _] using rev_ind.
  - apply app_inj_tail in Heq as [-> ->]. split; [done | congruence].
  - rewrite app_comm_cons, app_assoc in Heq.
    apply app_inj_tail in Heq as [-> _].
    rewrite (Hclean before e after eq_refl) in Hy. discriminate Hy.
Qed.

Section Faithful.
Context (w : World) (a : main_args).

Lemma faithful_ret {A} (v : A) : faithful w a (mret v).
Proof. by apply hoare_ret. Qed.

Lemma faithful_bind {A B} (m : M A) (k : A → M B) :
  faithful w a m → (∀ v, faithful w a (k v)) → faithful w a (m ≫= k).
Proof. intros Hm Hk. eapply hoare_bind; [exact Hm | exact Hk]. Qed.

Lemma faithful_if {A} (b : bool) (m1 m2 : M A) :
  faithful w a m1 → faithful w a m2 → faithful w a (if b then m1 else m2).
Proof. by destruct b. Qed.

Lemma faithful_assert (b : bool) : faithful w a (assert_ b assert_msg).
Proof.
  apply faithful_if; [apply faithful_ret |].
  apply hoare_raise. intros log Hlog. left. split; [by right | exact Hlog].
Qed.

Lemma faithful_task_lookup :
  faithful w a
    (try_except (g ← globals_; getitem g (task_name a))
       (λ _, raise (ValueError ("Unknown task name: " +:+ task_name a)))).
Proof.
  apply hoare_task_lookup; [auto |].
  intros log Hlog _. left. split; [by left | exact Hlog].
Qed.

(** A call whose answer is the world's: its exception, if any, is the
    one the invocation ends with. *)
Lemma faithful_request {A} (e : event) (answer : World → list event → result A) :
  (∀ log, exn_of (answer w log) = raised w log e) →
  faithful w a (request e answer).
Proof.
  intros Hanswer. apply hoare_request.
  - intros log v Hlog Hok. apply clean_snoc; [exact Hlog |].
    by rewrite <- Hanswer, Hok.
  - intros log x Hlog Hraise. right. exists log, e.
    split; [done |]. split; [exact Hlog |]. by rewrite <- Hanswer, Hraise.
Qed.

Lemma main_faithful : faithful w a (main a).
Proof.
  unfold main.
  repeat first
    [ apply faithful_task_lookup
    | apply faithful_assert
    | apply faithful_ret
    | apply faithful_if
    | apply faithful_bind; [ | first [ intros [? ?] | intros ? ] ]
    | apply faithful_request; intros ?; reflexivity ].
Qed.
End Faithful.

(** C6. Whenever a library call of an invocation raises (the model load,
    the tokenizer load, an evaluation run or any other), that call is the
    last thing [main] did and the invocation ends with that very exception:
    nothing is caught, retried or cleaned up. *)
Theorem library_errors_propagate (w : World) (a : main_args)
    (before after : list event) (e : event) (x : exn) :
  (invoke w a).1 = before ++ e :: after →
  raised w before e = Some x →
  after = [] ∧ (invoke w a).2 = Raise x.
Proof.
  unfold invoke. destruct (main a w []) as [log r] eqn:Hrun. simpl.
  intros Hlog Hx.
  pose proof (main_faithful w a [] log r Hrun (clean_nil w)) as Hend.
  destruct r as [[] | y].
  - rewrite (Hend before e after Hlog) in Hx. discriminate Hx.
  - destruct Hend as [[_ Hclean] | Hlast].
    + rewrite (Hclean before e after Hlog) in Hx. discriminate Hx.
    + destruct (last_raised_unique w log before after e y x Hlast Hlog Hx) as [-> ->].
      done.
Qed.

Lemma library_errors_propagate_witness :
  (invoke offline_world default_args).1
    = [] ++ ELoadModel "jinaai/jina-embeddings-v2-small-en" :: []
  ∧ raised offline_world [] (ELoadModel "jinaai/jina-embeddings-v2-small-en")
    = Some (OtherError "OSError" "no network")
  ∧ @nil event = []
  ∧ (invoke offline_world default_args).2 = Raise (OtherError "OSError" "no network").
Proof.
  split; [reflexivity |]. split; [reflexivity |].
  apply (library_errors_propagate offline_world default_args
           [] [] (ELoadModel "jinaai/jina-embeddings-v2-small-en")
           (OtherError "OSError" "no network")); reflexivity.
Defined.

(** An invocation that fails ends with an error of [main]'s own
    validations or with the exception of its last call. *)
Corollary failure_origin (w : World) (a : main_args) (x : exn) :
  (invoke w a).2 = Raise x →
  own_error a x ∨ ∃ before e, (invoke w a).1 = before ++ [e] ∧ raised w before e = Some x.
Proof.
  unfold invoke. destruct (main a w []) as [log r] eqn:Hrun. simpl. intros ->.
  destruct (main_faithful w a [] log (Raise x) Hrun (clean_nil w))
    as [[Hown _] | (before & e & -> & _ & Hx)]; [by left | right; eauto].
Qed.

(** ** The course of an invocation *)

Lemma handles_documents_check (a : main_args) :
  (effective_window a >? 0) || is_not_None (truncate_max_length a) = true
  ↔ handles_documents a.
Proof.
  unfold handles_documents, effective_window, truncation_wins.
  destruct (truncate_max_length a) as [t |]; simpl.
  - rewrite orb_true_r. split; eauto.
  - rewrite orb_false_r, Z.gtb_ltb, Z.ltb_lt. split; [auto |].
    intros [[? [=]] | ?]; done.
Qed.

Lemma notice_log_unhandled (a : main_args) :
  ¬ handles_documents a → notice_log a = [].
Proof.
  intros Hno. unfold notice_log, truncation_wins.
  destruct (truncate_max_length a) as [t |] eqn:Et; [| done].
  destruct Hno. left. unfold handles_documents. rewrite Et. eauto.
Qed.

Lemma before_runs_after_load (model : pyval) (e : event) :
  before_runs e → after_load model e.
Proof.
  intros [Hload Hrun]. split; [exact Hload |].
  intros ev m kw ->. discriminate Hrun.
Qed.

Lemma extends_impl (pre : list event) (ψ ψ' : event → Prop) (log : list event) :
  (∀ e, ψ e → ψ' e) → extends pre ψ log → extends pre ψ' log.
Proof.
  intros Himpl (rest & -> & Hrest). exists rest. split; [done |].
  by apply (Forall_impl _ _ _ Hrest).
Qed.

Section Extends.
Context (w : World).

(** A call allowed by [ψ] keeps the log an extension by [ψ]. *)
Lemma hoare_extends_request {A} (e : event) (answer : World → list event → result A)
    (pre : list event) (ψ : event → Prop) Q E :
  ψ e →
  (∀ log v, extends pre ψ log → Q log v) →
  (∀ log x, extends pre ψ log → E log x) →
  hoare w (extends pre ψ) (request e answer) Q E.
Proof.
  intros He HQ HE.
  assert (∀ log, extends pre ψ log → extends pre ψ (log ++ [e])) as Hstep.
  { intros log (rest & -> & Hrest). exists (rest ++ [e]).
    split; [by rewrite app_assoc |]. apply Forall_app. split; [done | by constructor]. }
  apply hoare_request; intros log ? Hlog _; [apply HQ | apply HE]; by apply Hstep.
Qed.
End Extends.

(** One statement of [main] after the model load: a call allowed by the
    current [ψ], then the rest. *)
Ltac then_call pre ψ :=
  apply hoare_bind with (R := λ log _, extends pre ψ log);
    [ apply (hoare_extends_request _ _ _ pre ψ);
        [ split; [reflexivity | first [ reflexivity | intros ? ? ? [=]; congruence ] ]
        | auto
        | auto ]
    | first [ intros [? ?] | intros ? ] ].

(** When the task name resolves, an invocation either fails the second
    validation at once or proceeds: it prints the notice if truncation
    overrides the window, loads the model, and from then on loads nothing
    and runs evaluations on one model only. *)
Lemma invoke_outline (w : World) (a : main_args) (cls : pyval) :
  resolves w a cls →
  (¬ handles_documents a ∧ invoke w a = ([], Raise (AssertionError assert_msg)))
  ∨ (handles_documents a ∧ proceeds a (invoke w a).1).
Proof.
  intros Hcls. unfold invoke. destruct (main a w []) as [final r] eqn:Hrun. simpl.
  set (pre := notice_log a ++ [ELoadModel (model_name a)]).
  set (E := λ (log : list event) (x : exn),
         (¬ handles_documents a ∧ log = [] ∧ x = AssertionError assert_msg)
         ∨ (handles_documents a ∧ proceeds a log)).
  assert (hoare w (λ log, log = []) (main a)
            (λ log _, handles_documents a ∧ proceeds a log) E) as Hmain.
  { unfold main.
    (* the task lookup *)
    apply hoare_bind_pure with (P' := λ log, log = []) (ψ := λ _, True).
    { apply hoare_task_lookup; [auto |].
      intros ? _ Hnone. unfold resolves in Hcls. congruence. }
    intros task_cls _.
    (* lines 87-89 *)
    apply hoare_bind_pure with (P' := λ log, log = notice_log a)
                               (ψ := λ v, v = effective_window a).
    { apply (hoare_if w (truncation_wins a)); intros Hwins;
        unfold notice_log, effective_window; rewrite Hwins.
      - eapply hoare_bind; [| intros ?; apply hoare_ret; intros log Hlog; exact Hlog].
        apply hoare_request; [| discriminate]. by intros log [] -> _.
      - by apply hoare_ret. }
    intros ? ->.
    (* the assert *)
    apply hoare_bind_pure with (P' := λ log, log = notice_log a)
                               (ψ := λ _, handles_documents a).
    { apply hoare_if; intros Hcheck.
      - apply hoare_ret. intros log ->. split; [done |].
        by apply handles_documents_check.
      - apply hoare_raise. intros log ->. left.
        assert (¬ handles_documents a) as Hno.
        { rewrite <- handles_documents_check, Hcheck. discriminate. }
        split; [exact Hno |]. split; [by apply notice_log_unhandled | done]. }
    intros _ Hdoc.
    assert (∀ log (x : exn), extends pre before_runs log → E log x) as HE0.
    { intros log x Hlog. right. split; [exact Hdoc |]. exists VNone.
      apply (extends_impl _ _ _ _ (before_runs_after_load VNone) Hlog). }
    (* the model load *)
    apply hoare_bind with (R := λ log _, extends pre before_runs log).
    { apply hoare_request.
      - intros log ? -> _. exists []. split; [by rewrite app_nil_r | constructor].
      - intros log x -> _. apply HE0. exists []. split; [by rewrite app_nil_r | constructor]. }
    intros [model has_instructions].
    then_call pre before_runs. cbv zeta. then_call pre before_runs.
    apply hoare_bind with (R := λ log _, extends pre before_runs log).
    { apply hoare_if; intros _.
      - apply (hoare_extends_request _ _ _ pre before_runs); [done | auto | auto].
      - by apply hoare_ret. }
    intros model'.
    (* from here on [model'] is the model *)
    assert (∀ log (x : exn), extends pre (after_load model') log → E log x) as HE1.
    { intros log x Hlog. right. split; [exact Hdoc |]. by exists model'. }
    apply hoare_conseq with (P' := extends pre (after_load model'))
      (Q' := λ log _, handles_documents a ∧ proceeds a log) (E' := E); [| | auto | auto].
    2: { intros log. apply extends_impl, before_runs_after_load. }
    do 6 then_call pre (after_load model').
    apply (hoare_extends_request _ _ _ pre (after_load model'));
      [ split; [reflexivity | intros ? ? ? [=]; congruence ] | | auto ].
    intros log _ Hlog. split; [exact Hdoc |]. by exists model'. }
  specialize (Hmain [] final r Hrun eq_refl). destruct r as [[] | x].
  - by right.
  - destruct Hmain as [(Hno & -> & ->) | Hyes]; [by left | by right].
Qed.

(** ** Loads and runs *)









(** ** An invocation in which no call raises *)

(** Unfold [main] down to the answers of the world. *)
Ltac unfold_main :=
  cbv beta iota zeta delta
    [invoke main mbind mret M_bind M_ret try_except globals_ getitem raise
     request assert_ print load_model AutoTokenizer_from_pretrained
     torch_cuda_is_available model_cuda model_eval call MTEB evaluation_run].

(** The answer or test a run is waiting for. *)
Ltac scrutinee t :=
  lazymatch t with
  | match ?x with Ok _ => _ | Raise _ => _ end => scrutinee x
  | match ?x with (_, _) => _ end => scrutinee x
  | (if ?x then _ else _) => scrutinee x
  | (if ?x then _ else _) _ _ => scrutinee x
  | (match ?x with (_, _) => _ end) _ _ => scrutinee x
  | _ => t
  end.

(** Case on it, and go on to the next. *)
Ltac step_in H :=
  lazymatch type of H with
  | ?run = _ =>
      let s := scrutinee run in
      lazymatch s with
      | (_, _) => fail
      | _ => destruct s eqn:?; cbv beta iota in H
      end
  end.

(** In a cooperative world no answer is an exception. *)
Ltac no_raise Hco :=
  exfalso;
  match goal with
  | Hx : on_load_model _ ?l ?n = Raise _ |- _ => specialize (Hco l (ELoadModel n))
  | Hx : on_from_pretrained _ ?l ?n ?kw = Raise _ |- _ =>
      specialize (Hco l (EFromPretrained n kw))
  | Hx : on_cuda_is_available _ ?l = Raise _ |- _ => specialize (Hco l ECudaIsAvailable)
  | Hx : on_model_cuda _ ?l ?m = Raise _ |- _ => specialize (Hco l (EModelCuda m))
  | Hx : on_model_eval _ ?l ?m = Raise _ |- _ => specialize (Hco l (EModelEval m))
  | Hx : on_call _ ?l ?c ?kw = Raise _ |- _ => specialize (Hco l (ECall c kw))
  | Hx : on_MTEB _ ?l ?kw = Raise _ |- _ => specialize (Hco l (EMTEB kw))
  | Hx : on_run _ ?l ?ev ?m ?kw = Raise _ |- _ => specialize (Hco l (ERun ev m kw))
  end;
  cbv [raised exn_of] in Hco;
  match goal with Hx : _ = Raise _ |- _ => rewrite Hx in Hco end;
  discriminate Hco.

(** The whole log of an invocation that passes both validations in a world
    where no call raises. *)
Lemma invoke_cooperative (w : World) (a : main_args) (cls : pyval) :
  resolves w a cls → handles_documents a → cooperative w →
  ∃ model has_instructions tokenizer model' task1 evaluation1 task2 evaluation2 cuda_log,
    invoke w a =
      (notice_log a ++
       [ELoadModel (model_name a);
        EFromPretrained (model_name a) {[ "trust_remote_code" := VBool true ]};
        ECudaIsAvailable] ++ cuda_log ++
       [EModelEval model';
        ECall cls (chunked_task_kwargs a tokenizer has_instructions);
        EMTEB (mteb_kwargs a true task1 tokenizer has_instructions);
        ERun evaluation1 model' (run_kwargs a "results-chunked-pooling");
        ECall cls (normal_task_kwargs a tokenizer has_instructions);
        EMTEB (mteb_kwargs a false task2 tokenizer has_instructions);
        ERun evaluation2 model' (run_kwargs a "results-normal-pooling")],
       Ok ())
    ∧ (cuda_log = [] ∧ model' = model ∨ cuda_log = [EModelCuda model]).
Proof.
  intros Hcls Hdoc Hco. unfold resolves in Hcls.
  apply handles_documents_check in Hdoc.
  destruct (invoke w a) as [log r] eqn:Hrun.
  revert Hdoc Hrun. unfold_main. rewrite Hcls.
  cbv beta iota delta [notice_log chunked_task_kwargs effective_window truncation_wins].
  intros Hdoc Hrun.
  repeat (step_in Hrun; try no_raise Hco).
  all: try (rewrite Hdoc in *; discriminate).
  all: injection Hrun as <- <-.
  all: match goal with
       | |- context [on_run ?w ?l ?ev ?m ?kw] =>
           destruct (on_run w l ev m kw) as [[] | ?] eqn:?; [| no_raise Hco]
       end.
  all: first
    [ eexists _, _, _, _, _, _, _, _, [];
        split; [reflexivity | left; split; reflexivity]
    | eexists _, _, _, _, _, _, _, _, [EModelCuda _];
        split; [reflexivity | right; reflexivity] ].
Qed.

(** ** The two evaluations *)

Lemma handles_documents_default : handles_documents default_args.
Proof. right. reflexivity. Qed.




(** ** Truncation against the window *)

(** C2, as the code has it.  When the task name resolves, truncation is
    set and the window option is positive, [main] prints the notice
    before anything else, and every window a task constructor receives is
    0; when no call raises, the first task constructor does receive it. *)
Theorem truncation_disables_window (w : World) (a : main_args) (cls : pyval) (t : Z) :
  resolves w a cls →
  truncate_max_length a = Some t →
  0 < long_late_chunking_embed_size a →
  (∃ rest, (invoke w a).1 = EPrint notice :: rest)
  ∧ (∀ c kw v, ECall c kw ∈ (invoke w a).1 →
       kw !! "long_late_chunking_embed_size" = Some v → v = VInt 0)
  ∧ (cooperative w →
       ∃ kw, ECall cls kw ∈ (invoke w a).1
         ∧ kw !! "long_late_chunking_embed_size" = Some (VInt 0)).
Proof.
  intros Hcls Ht Hw.
  destruct (effective_window_forced a t Ht Hw) as [Hwins Hzero].
  assert (handles_documents a) as Hdoc.
  { left. rewrite Ht. eauto. }
  split; [| split].
  - destruct (invoke_outline w a cls Hcls) as [[Hno _] | [_ Hgo]]; [done |].
    destruct Hgo as (model & rest & -> & _).
    unfold notice_log. rewrite Hwins. by eexists.
  - intros c kw v Hin Hv.
    destruct (task_call_site w a c kw Hin) as (_ & tok & hi & [-> | ->]).
    + rewrite chunked_task_window, Hzero in Hv. by injection Hv as <-.
    + rewrite normal_task_window in Hv. discriminate Hv.
  - intros Hco.
    destruct (invoke_cooperative w a cls Hcls Hdoc Hco)
      as (model & hi & tok & model' & task1 & ev1 & task2 & ev2 & cuda_log & -> & _).
    exists (chunked_task_kwargs a tok hi).
    split; [| by rewrite chunked_task_window, Hzero].
    cbn [fst]. do 3 (apply elem_of_app; right).
    apply list_elem_of_further, list_elem_of_here.
Qed.

Lemma truncation_disables_window_witness :
  resolves sample_world truncating SciFactChunked
  ∧ truncate_max_length truncating = Some 512
  ∧ 0 < long_late_chunking_embed_size truncating
  ∧ ∃ rest, (invoke sample_world truncating).1 = EPrint notice :: rest.
Proof.
  assert (resolves sample_world truncating SciFactChunked) as Hcls by reflexivity.
  assert (truncate_max_length truncating = Some 512) as Ht by reflexivity.
  assert (0 < long_late_chunking_embed_size truncating) as Hw by reflexivity.
  split; [exact Hcls |]. split; [exact Ht |]. split; [exact Hw |].
  exact (proj1 (truncation_disables_window sample_world truncating SciFactChunked 512
                  Hcls Ht Hw)).
Defined.

(** C2 as stated fails when the task name is unknown: [main] raises
    before it reaches the check, and prints no notice. *)
Lemma unknown_task_prints_no_notice :
  truncate_max_length (misnamed truncating) = Some 512
  ∧ 0 < long_late_chunking_embed_size (misnamed truncating)
  ∧ invoke sample_world (misnamed truncating)
    = ([], Raise (ValueError "Unknown task name: NoSuchTask"))
  ∧ EPrint notice ∉ (invoke sample_world (misnamed truncating)).1.
Proof.
  split; [reflexivity |]. split; [reflexivity |]. split; [reflexivity |].
  apply not_elem_of_nil.
Qed.

(** ** The command line *)

(** C8.  Every option of the command is optional and declares a default;
    with no flag given [main] receives no truncation and a window of 8192.
    Provided [chunked_pooling.chunked_eval_tasks] exports the default task,
    SciFactChunked, that invocation passes both validations: its first
    call is the model load, and the window the task constructor receives
    is 8192, so long late chunking is on. *)
Theorem defaults_pass_validation (w : World) :
  "SciFactChunked" ∈ (star_exports w).*1 →
  Forall (λ o, is_required o = false ∧ is_Some (opt_default o)) main_options
  ∧ click_parse ∅ = Ok default_args
  ∧ truncate_max_length default_args = None
  ∧ long_late_chunking_embed_size default_args = 8192
  ∧ (∃ rest, (command w ∅).1
               = ELoadModel "jinaai/jina-embeddings-v2-small-en" :: rest)
  ∧ (∀ c kw v, ECall c kw ∈ (command w ∅).1 →
       kw !! "long_late_chunking_embed_size" = Some v → v = VInt 8192).
Proof.
  intros Hexport.
  split; [repeat constructor; by eexists |].
  split; [reflexivity |]. split; [reflexivity |]. split; [reflexivity |].
  change (command w ∅) with (invoke w default_args).
  destruct (globals_star w "SciFactChunked" Hexport) as [cls Hcls].
  split.
  - destruct (invoke_outline w default_args cls Hcls) as [[Hno _] | [_ Hgo]].
    + destruct Hno. exact handles_documents_default.
    + destruct Hgo as (model & rest & -> & _). by exists rest.
  - intros c kw v Hin Hv.
    destruct (task_call_site w default_args c kw Hin) as (_ & tok & hi & [-> | ->]).
    + rewrite chunked_task_window in Hv. by injection Hv as <-.
    + rewrite normal_task_window in Hv. discriminate Hv.
Qed.

Lemma defaults_pass_validation_witness :
  "SciFactChunked" ∈ (star_exports sample_world).*1
  ∧ ∃ rest, (command sample_world ∅).1
              = ELoadModel "jinaai/jina-embeddings-v2-small-en" :: rest.
Proof.
  assert ("SciFactChunked" ∈ (star_exports sample_world).*1) as Hexport.
  { apply list_elem_of_here. }
  split; [exact Hexport |].
  exact (proj1 (proj2 (proj2 (proj2 (proj2
           (defaults_pass_validation sample_world Hexport)))))).
Defined.

(** * The control flow of [main] *)

Section Flow.
Context (w : World) (a : main_args) (cls : pyval).

(** A call made at a point [p]: if it returns, [main] advances; if it
    raises, the invocation stops there. *)
Lemma hoare_advance {A} (p : point) (e : event)
    (answer : World → list event → result A) (next : A → point) Q :
  next_call a cls p = Some e →
  (∀ log, exn_of (answer w log) = raised w log e) →
  (∀ log v, answer w log = Ok v → advance w a cls p log (next v)) →
  (∀ log v, reach w a cls (next v) log → Q log v) →
  hoare w (reach w a cls p) (request e answer) Q
    (λ log x, stops w a cls (log, Raise x)).
Proof.
  intros Hcall Hraised Hnext HQ. apply hoare_request.
  - intros log v Hreach Hv. apply HQ.
    exact (reach_step w a cls p log (next v) e Hreach Hcall (Hnext log v Hv)).
  - intros log x Hreach Hx. exists p, log. split; [exact Hreach |].
    right. exists e, x. split; [exact Hcall |]. split; [| done].
    by rewrite <- Hraised, Hx.
Qed.
End Flow.

(** One statement of [main]: the call of the current point, then the rest
    at the point [next] gives for its value. *)
Ltac at_point w a cls p next x :=
  apply hoare_bind with (R := λ log v, reach w a cls (next v) log);
    [ apply (hoare_advance w a cls p _ _ next);
        [ reflexivity
        | intros ?; reflexivity
        | intros ? ? Hv;
          first [ constructor; exact Hv
                | match goal with v : bool |- _ => destruct v end;
                  constructor; exact Hv
                | match goal with v : (_ * _)%type |- _ => destruct v end;
                  constructor; exact Hv
                | match goal with v : () |- _ => destruct v end;
                  constructor; exact Hv ]
        | auto ]
    | intros x ].

(** An invocation that passes both validations walks the control flow of
    [main] until a call raises or the last run returns. *)
Lemma invoke_reach (w : World) (a : main_args) (cls : pyval) :
  resolves w a cls → handles_documents a → stops w a cls (invoke w a).
Proof.
  intros Hcls Hdoc. unfold invoke.
  destruct (main a w []) as [final r] eqn:Hrun.
  assert (hoare w (λ log, log = []) (main a)
            (λ log _, reach w a cls PDone log)
            (λ log x, stops w a cls (log, Raise x))) as Hmain.
  { unfold main.
    apply hoare_bind_pure with (P' := λ log, log = []) (ψ := λ c, c = cls).
    { apply hoare_task_lookup.
      - intros log c -> Hc. unfold resolves in Hcls. split; [done | congruence].
      - intros ? _ Hnone. unfold resolves in Hcls. congruence. }
    intros ? ->.
    apply hoare_bind_pure with (P' := λ log, log = notice_log a)
                               (ψ := λ v, v = effective_window a).
    { apply (hoare_if w (truncation_wins a)); intros Hwins;
        unfold notice_log, effective_window; rewrite Hwins.
      - eapply hoare_bind; [| intros ?; apply hoare_ret; intros log Hlog; exact Hlog].
        apply hoare_request; [| discriminate]. by intros log [] -> _.
      - by apply hoare_ret. }
    intros ? ->.
    apply hoare_bind_pure with (P' := reach w a cls PLoad) (ψ := λ _, True).
    { apply hoare_if; intros Hcheck.
      - apply hoare_ret. intros log ->. split; [constructor | done].
      - apply handles_documents_check in Hdoc. congruence. }
    intros _ _.
    at_point w a cls PLoad (λ v : pyval * pyval, PTokenizer v.1 v.2) loaded.
    destruct loaded as [model hi]. cbv beta iota delta [fst snd].
    at_point w a cls (PTokenizer model hi) (λ tok, PCudaIsAvailable model hi tok) tok.
    cbv zeta.
    at_point w a cls (PCudaIsAvailable model hi tok)
             (λ b : bool, if b then PCuda model hi tok else PEval model hi tok) available.
    apply hoare_bind with (R := λ log m, reach w a cls (PEval m hi tok) log).
    { destruct available.
      - apply (hoare_advance w a cls (PCuda model hi tok) _ _ (λ m, PEval m hi tok));
          [reflexivity | intros ?; reflexivity | by constructor | auto].
      - by apply hoare_ret. }
    intros model'.
    at_point w a cls (PEval model' hi tok) (λ _ : (), PTask true model' hi tok) u1.
    at_point w a cls (PTask true model' hi tok) (λ t, PMTEB true model' hi tok t) task1.
    at_point w a cls (PMTEB true model' hi tok task1)
             (λ ev, PRun true model' hi tok ev) evaluation1.
    at_point w a cls (PRun true model' hi tok evaluation1)
             (λ _ : (), PTask false model' hi tok) u2.
    at_point w a cls (PTask false model' hi tok) (λ t, PMTEB false model' hi tok t) task2.
    at_point w a cls (PMTEB false model' hi tok task2)
             (λ ev, PRun false model' hi tok ev) evaluation2.
    apply (hoare_advance w a cls (PRun false model' hi tok evaluation2) _ _ (λ _, PDone));
      [reflexivity | intros ?; reflexivity | | auto].
    intros log [] Hv. by constructor. }
  specialize (Hmain [] final r Hrun eq_refl). destruct r as [[] | x].
  - exists PDone, final. split; [exact Hmain | by left].
  - exact Hmain.
Qed.

(** ** Properties of every call of the log *)

Lemma hist_nil (Φ : list event → event → Prop) : hist Φ [].
Proof. intros i e Hi. by rewrite lookup_nil in Hi. Qed.

Lemma hist_snoc (Φ : list event → event → Prop) (log : list event) (e : event) :
  hist Φ log → Φ log e → hist Φ (log ++ [e]).
Proof.
  intros Hlog He i e' Hi. apply lookup_snoc_Some in Hi as [[Hlt Hi] | [-> <-]].
  - rewrite take_app_le by lia. by apply Hlog.
  - by rewrite take_app_length.
Qed.

Lemma asked_snoc (log : list event) (e e' : event) (Ψ : list event → Prop) :
  asked log e Ψ → asked (log ++ [e']) e Ψ.
Proof.
  intros (k & Hk & HΨ). exists k. pose proof (lookup_lt_Some _ _ _ Hk).
  split; [by rewrite lookup_app_l | by rewrite take_app_le by lia].
Qed.

Lemma asked_last (log : list event) (e : event) (Ψ : list event → Prop) :
  Ψ log → asked (log ++ [e]) e Ψ.
Proof.
  intros HΨ. exists (length log).
  split; [by apply list_lookup_middle | by rewrite take_app_length].
Qed.

Lemma asked_impl (log : list event) (e : event) (Ψ Ψ' : list event → Prop) :
  (∀ before, Ψ before → Ψ' before) → asked log e Ψ → asked log e Ψ'.
Proof. intros Himpl (k & Hk & HΨ). exists k. auto. Qed.

(** What was asked before the call at [i] was asked before [i]. *)
Lemma asked_take (log : list event) (i : nat) (e : event) (Ψ : list event → Prop) :
  asked (take i log) e Ψ →
  ∃ k, (k < i)%nat ∧ log !! k = Some e ∧ Ψ (take k log).
Proof.
  intros (k & Hk & HΨ). apply lookup_take_Some in Hk as [Hk Hlt].
  exists k. split; [done |]. split; [done |].
  by rewrite take_take, Nat.min_l in HΨ by lia.
Qed.

Section History.
Context (w : World) (a : main_args) (cls : pyval).
Context (Φ : list event → event → Prop) (J : point → list event → Prop).
Hypothesis J_start : J PLoad (notice_log a).
Hypothesis Φ_notice : truncation_wins a = true → Φ [] (EPrint notice).
Hypothesis J_step : ∀ p log p' e,
  reach w a cls p log → J p log → next_call a cls p = Some e →
  advance w a cls p log p' → J p' (log ++ [e]).
Hypothesis Φ_call : ∀ p log e,
  reach w a cls p log → J p log → next_call a cls p = Some e → Φ log e.

(** An invariant of the points, established at the start and kept by
    every step, holds wherever [main] gets, and gives [Φ] of every call. *)
Lemma reach_hist (p : point) (log : list event) :
  reach w a cls p log → J p log ∧ hist Φ log.
Proof.
  induction 1 as [| p log p' e Hreach [HJ Hhist] Hcall Hadv].
  - split; [exact J_start |]. unfold notice_log.
    destruct (truncation_wins a) eqn:Hwins; [| apply hist_nil].
    apply (hist_snoc Φ [] (EPrint notice) (hist_nil Φ)). by apply Φ_notice.
  - split; [by apply (J_step p log p' e) |].
    apply hist_snoc; [exact Hhist |]. by apply (Φ_call p log e).
Qed.

Lemma stops_hist (final : list event * result unit) :
  stops w a cls final → hist Φ final.1.
Proof.
  intros (p & log & Hreach & Hend).
  destruct (reach_hist p log Hreach) as [HJ Hhist].
  destruct Hend as [[_ ->] | (e & x & Hcall & _ & ->)]; [exact Hhist |].
  apply hist_snoc; [exact Hhist |]. by apply (Φ_call p log e).
Qed.

Lemma stops_done (log : list event) :
  stops w a cls (log, Ok ()) → J PDone log.
Proof.
  intros (p & log' & Hreach & Hend).
  destruct (reach_hist p log' Hreach) as [HJ _].
  destruct Hend as [[-> [= ->]] | (e & x & _ & _ & [=])]. exact HJ.
Qed.
End History.

(** A property of every call of an invocation: it is enough to check it
    along the control flow of [main], for the class the task name resolves
    to and options that pass the second validation. *)
Lemma invoke_hist (w : World) (a : main_args) (Φ : list event → event → Prop) :
  (∀ cls, resolves w a cls → handles_documents a →
     ∃ J : point → list event → Prop,
       J PLoad (notice_log a)
       ∧ (truncation_wins a = true → Φ [] (EPrint notice))
       ∧ (∀ p log p' e, reach w a cls p log → J p log → next_call a cls p = Some e →
            advance w a cls p log p' → J p' (log ++ [e]))
       ∧ (∀ p log e, reach w a cls p log → J p log → next_call a cls p = Some e →
            Φ log e)) →
  hist Φ (invoke w a).1.
Proof.
  intros Hflow. destruct (globals w !! task_name a) as [cls |] eqn:Hcls.
  - destruct (invoke_outline w a cls Hcls) as [[_ ->] | [Hdoc _]]; [apply hist_nil |].
    destruct (Hflow cls Hcls Hdoc) as (J & H1 & H2 & H3 & H4).
    apply (stops_hist w a cls Φ J H1 H2 H3 H4). by apply invoke_reach.
  - rewrite (invoke_unresolved w a Hcls). apply hist_nil.
Qed.

(** Case on the step taken, with the call of the point it leaves. *)
Ltac on_step Hcall Hadv :=
  destruct Hadv; cbv [next_call] in Hcall; injection Hcall as <-.

(** Case on the point, with the call made there. *)
Ltac on_point p Hcall :=
  destruct p; cbv [next_call] in Hcall; [injection Hcall as <- .. | discriminate Hcall].

(** ** [model.eval()] before any evaluation *)

Lemma eval_precedes_runs (w : World) (a : main_args) :
  hist (λ before e, ∀ ev m kw, e = ERun ev m kw →
          asked before (EModelEval m) (λ log, on_model_eval w log m = Ok ()))
       (invoke w a).1.
Proof.
  apply invoke_hist. intros cls Hcls Hdoc.
  exists (λ p log,
    match p with
    | PTask _ m _ _ | PMTEB _ m _ _ _ | PRun _ m _ _ _ =>
        asked log (EModelEval m) (λ log, on_model_eval w log m = Ok ())
    | _ => True
    end).
  split; [done |]. split; [done |]. split.
  - intros p log p' e _ HJ Hcall Hadv. on_step Hcall Hadv;
      first [ exact I | by apply asked_last | by apply asked_snoc ].
  - intros p log e _ HJ Hcall ev m kw. on_point p Hcall; intros [=]. by subst.
Qed.

(** X6. Every evaluation run is made on a model on which [model.eval()]
    was called earlier in the invocation, and had returned. *)
Theorem run_after_eval (w : World) (a : main_args) (i : nat) (ev m : pyval) (kw : kwargs) :
  (invoke w a).1 !! i = Some (ERun ev m kw) →
  ∃ k, (k < i)%nat
    ∧ (invoke w a).1 !! k = Some (EModelEval m)
    ∧ on_model_eval w (take k (invoke w a).1) m = Ok ().
Proof.
  intros Hi.
  apply (asked_take _ i (EModelEval m) (λ log, on_model_eval w log m = Ok ())).
  exact (eval_precedes_runs w a i _ Hi ev m kw eq_refl).
Qed.

Lemma run_after_eval_witness :
  (invoke sample_world default_args).1 !! 6%nat
    = Some (ERun (VRef 5) (VRef 0) (run_kwargs default_args "results-chunked-pooling"))
  ∧ ∃ k, (k < 6)%nat
      ∧ (invoke sample_world default_args).1 !! k = Some (EModelEval (VRef 0))
      ∧ on_model_eval sample_world (take k (invoke sample_world default_args).1) (VRef 0)
        = Ok ().
Proof.
  split; [reflexivity |].
  apply (run_after_eval sample_world default_args 6 (VRef 5) (VRef 0)
           (run_kwargs default_args "results-chunked-pooling")).
  reflexivity.
Defined.

(** ** Moving the model to the GPU *)

(** The log before the call at [i] ends with [x]: [x] is the call at
    [i - 1]. *)
Lemma take_snoc_inv (log before : list event) (i : nat) (e x : event) :
  log !! i = Some e → take i log = before ++ [x] →
  ∃ j, i = S j ∧ log !! j = Some x ∧ take j log = before.
Proof.
  intros Hi Htake. pose proof (lookup_lt_Some _ _ _ Hi) as Hlt.
  assert (length (take i log) = i) as Hlen by (rewrite length_take; lia).
  rewrite Htake, length_app in Hlen. simpl in Hlen.
  exists (length before). split; [by rewrite <- Hlen, Nat.add_1_r |]. split.
  - rewrite <- (lookup_take_lt log i) by lia. rewrite Htake.
    by apply list_lookup_middle.
  - transitivity (take (length before) (take i log)).
    + rewrite take_take. f_equal. lia.
    + rewrite Htake. apply take_app_length.
Qed.

Lemma cuda_follows_availability (w : World) (a : main_args) :
  hist (λ before e, ∀ m, e = EModelCuda m →
          (∃ log, before = log ++ [ECudaIsAvailable]
                  ∧ on_cuda_is_available w log = Ok true)
          ∧ asked before (ELoadModel (model_name a))
              (λ log, ∃ hi, on_load_model w log (model_name a) = Ok (m, hi)))
       (invoke w a).1.
Proof.
  apply invoke_hist. intros cls Hcls Hdoc.
  set (loaded := λ (m : pyval) (log : list event),
         asked log (ELoadModel (model_name a))
           (λ log, ∃ hi, on_load_model w log (model_name a) = Ok (m, hi))).
  exists (λ p log,
    match p with
    | PTokenizer m _ | PCudaIsAvailable m _ _ => loaded m log
    | PCuda m _ _ =>
        loaded m log
        ∧ ∃ log', log = log' ++ [ECudaIsAvailable] ∧ on_cuda_is_available w log' = Ok true
    | _ => True
    end).
  split; [done |]. split; [done |]. split.
  - intros p log p' e _ HJ Hcall Hadv. on_step Hcall Hadv; try exact I.
    + apply asked_last. eauto.
    + by apply asked_snoc.
    + split; [by apply asked_snoc | eauto].
  - intros p log e _ HJ Hcall m. on_point p Hcall; intros [=]. subst.
    destruct HJ as [Hloaded Havail]. by split.
Qed.

(** X7. [model.cuda()] is called only as the call right after
    [torch.cuda.is_available()] answered [True], and on the model that
    [load_model(model_name)] returned. *)
Theorem cuda_only_when_available (w : World) (a : main_args) (i : nat) (m : pyval) :
  (invoke w a).1 !! i = Some (EModelCuda m) →
  ∃ j k hi, i = S j ∧ (k < j)%nat
    ∧ (invoke w a).1 !! j = Some ECudaIsAvailable
    ∧ on_cuda_is_available w (take j (invoke w a).1) = Ok true
    ∧ (invoke w a).1 !! k = Some (ELoadModel (model_name a))
    ∧ on_load_model w (take k (invoke w a).1) (model_name a) = Ok (m, hi).
Proof.
  intros Hi.
  destruct (cuda_follows_availability w a i _ Hi m eq_refl)
    as [(before & Htake & Havail) Hloaded].
  destruct (take_snoc_inv _ _ _ _ _ Hi Htake) as (j & -> & Hj & <-).
  apply asked_take in Hloaded as (k & Hlt & Hk & hi & Hload).
  exists j, k, hi. repeat split; try done.
  assert (k ≠ j) by (intros ->; congruence). lia.
Qed.

Lemma cuda_only_when_available_witness :
  (invoke accelerated_world default_args).1 !! 3%nat = Some (EModelCuda (VRef 0))
  ∧ ∃ j k hi, 3%nat = S j ∧ (k < j)%nat
      ∧ (invoke accelerated_world default_args).1 !! j = Some ECudaIsAvailable
      ∧ on_cuda_is_available accelerated_world
          (take j (invoke accelerated_world default_args).1) = Ok true
      ∧ (invoke accelerated_world default_args).1 !! k
        = Some (ELoadModel (model_name default_args))
      ∧ on_load_model accelerated_world
          (take k (invoke accelerated_world default_args).1) (model_name default_args)
        = Ok (VRef 0, hi).
Proof.
  split; [reflexivity |].
  apply (cuda_only_when_available accelerated_world default_args 3 (VRef 0)).
  reflexivity.
Defined.

(** ** Where the model of a run comes from *)

Lemma run_model_origin (w : World) (a : main_args) :
  hist (λ before e, ∀ ev m kw, e = ERun ev m kw →
          ∃ m0,
            asked before (ELoadModel (model_name a))
              (λ log, ∃ hi, on_load_model w log (model_name a) = Ok (m0, hi))
            ∧ ((m = m0 ∧ asked before ECudaIsAvailable
                           (λ log, on_cuda_is_available w log = Ok false))
               ∨ asked before (EModelCuda m0) (λ log, on_model_cuda w log m0 = Ok m)))
       (invoke w a).1.
Proof.
  apply invoke_hist. intros cls Hcls Hdoc.
  set (loaded := λ (m : pyval) (log : list event),
         asked log (ELoadModel (model_name a))
           (λ log, ∃ hi, on_load_model w log (model_name a) = Ok (m, hi))).
  set (settled := λ (m : pyval) (log : list event),
         ∃ m0, loaded m0 log
           ∧ ((m = m0 ∧ asked log ECudaIsAvailable
                           (λ log, on_cuda_is_available w log = Ok false))
              ∨ asked log (EModelCuda m0) (λ log, on_model_cuda w log m0 = Ok m))).
  assert (∀ m log e, settled m log → settled m (log ++ [e])) as Hkeep.
  { intros m log e (m0 & Hloaded & [[-> Hno] | Hmoved]); exists m0;
      (split; [by apply asked_snoc |]); [left | right]; auto using asked_snoc. }
  exists (λ p log,
    match p with
    | PTokenizer m _ | PCudaIsAvailable m _ _ | PCuda m _ _ => loaded m log
    | PEval m _ _ | PTask _ m _ _ | PMTEB _ m _ _ _ | PRun _ m _ _ _ => settled m log
    | _ => True
    end).
  split; [done |]. split; [done |]. split.
  - intros p log p' e _ HJ Hcall Hadv. on_step Hcall Hadv; try exact I; auto.
    + apply asked_last. eauto.
    + by apply asked_snoc.
    + by apply asked_snoc.
    + exists model. split; [by apply asked_snoc |]. left. split; [done |].
      by apply asked_last.
    + exists model. split; [by apply asked_snoc |]. right. by apply asked_last.
  - intros p log e _ HJ Hcall ev m kw. on_point p Hcall; intros [=]. by subst.
Qed.

(** X8. The model of every evaluation run is the one
    [load_model(model_name)] returned when [torch.cuda.is_available()]
    answered [False], and otherwise what [.cuda()] returned for it. *)
Theorem run_model_provenance (w : World) (a : main_args)
    (i : nat) (ev m : pyval) (kw : kwargs) :
  (invoke w a).1 !! i = Some (ERun ev m kw) →
  ∃ k m0 hi, (k < i)%nat
    ∧ (invoke w a).1 !! k = Some (ELoadModel (model_name a))
    ∧ on_load_model w (take k (invoke w a).1) (model_name a) = Ok (m0, hi)
    ∧ ((m = m0
        ∧ ∃ j, (j < i)%nat ∧ (invoke w a).1 !! j = Some ECudaIsAvailable
            ∧ on_cuda_is_available w (take j (invoke w a).1) = Ok false)
       ∨ ∃ j, (j < i)%nat ∧ (invoke w a).1 !! j = Some (EModelCuda m0)
           ∧ on_model_cuda w (take j (invoke w a).1) m0 = Ok m).
Proof.
  intros Hi.
  destruct (run_model_origin w a i _ Hi ev m kw eq_refl) as (m0 & Hloaded & Hm).
  apply asked_take in Hloaded as (k & Hlt & Hk & hi & Hload).
  exists k, m0, hi. split; [done |]. split; [done |]. split; [done |].
  destruct Hm as [[-> Hno] | Hmoved]; [left | right].
  - split; [done |]. by apply asked_take in Hno.
  - by apply asked_take in Hmoved.
Qed.

Lemma run_model_provenance_witness :
  (invoke sample_world default_args).1 !! 9%nat
    = Some (ERun (VRef 8) (VRef 0) (run_kwargs default_args "results-normal-pooling"))
  ∧ ∃ k m0 hi, (k < 9)%nat
      ∧ (invoke sample_world default_args).1 !! k
        = Some (ELoadModel (model_name default_args))
      ∧ on_load_model sample_world (take k (invoke sample_world default_args).1)
          (model_name default_args) = Ok (m0, hi)
      ∧ ((VRef 0 = m0
          ∧ ∃ j, (j < 9)%nat
              ∧ (invoke sample_world default_args).1 !! j = Some ECudaIsAvailable
              ∧ on_cuda_is_available sample_world
                  (take j (invoke sample_world default_args).1) = Ok false)
         ∨ ∃ j, (j < 9)%nat
             ∧ (invoke sample_world default_args).1 !! j = Some (EModelCuda m0)
             ∧ on_model_cuda sample_world
                 (take j (invoke sample_world default_args).1) m0 = Ok (VRef 0)).
Proof.
  split; [reflexivity |].
  apply (run_model_provenance sample_world default_args 9 (VRef 8) (VRef 0)
           (run_kwargs default_args "results-normal-pooling")).
  reflexivity.
Defined.

(** ** Task, evaluation, run *)

Lemma task_kwargs_flag (a : main_args) (chunked : bool) (tok hi : pyval) :
  task_kwargs a chunked tok hi !! "chunked_pooling_enabled" = Some (VBool chunked).
Proof. by destruct chunked. Qed.

Lemma mteb_kwargs_flag (a : main_args) (chunked : bool) (task tok hi : pyval) :
  mteb_kwargs a chunked task tok hi !! "chunked_pooling_enabled" = Some (VBool chunked).
Proof. reflexivity. Qed.

Lemma mteb_kwargs_tasks (a : main_args) (chunked : bool) (task tok hi : pyval) :
  mteb_kwargs a chunked task tok hi !! "tasks" = Some (VList [task]).
Proof. reflexivity. Qed.

Lemma run_follows_construction (w : World) (a : main_args) :
  hist (λ before e, ∀ ev m kw, e = ERun ev m kw →
          ∃ log c tkw task mkw chunked,
            before = (log ++ [ECall c tkw]) ++ [EMTEB mkw]
            ∧ on_call w log c tkw = Ok task
            ∧ on_MTEB w (log ++ [ECall c tkw]) mkw = Ok ev
            ∧ mkw !! "tasks" = Some (VList [task])
            ∧ tkw !! "chunked_pooling_enabled" = Some (VBool chunked)
            ∧ mkw !! "chunked_pooling_enabled" = Some (VBool chunked)
            ∧ kw !! "output_folder" = Some (VStr (output_folder chunked)))
       (invoke w a).1.
Proof.
  apply invoke_hist. intros cls Hcls Hdoc.
  exists (λ p log,
    match p with
    | PMTEB chunked _ hi tok task =>
        ∃ log', log = log' ++ [ECall cls (task_kwargs a chunked tok hi)]
          ∧ on_call w log' cls (task_kwargs a chunked tok hi) = Ok task
    | PRun chunked _ hi tok ev =>
        ∃ log' task,
          log = (log' ++ [ECall cls (task_kwargs a chunked tok hi)])
                ++ [EMTEB (mteb_kwargs a chunked task tok hi)]
          ∧ on_call w log' cls (task_kwargs a chunked tok hi) = Ok task
          ∧ on_MTEB w (log' ++ [ECall cls (task_kwargs a chunked tok hi)])
              (mteb_kwargs a chunked task tok hi) = Ok ev
    | _ => True
    end).
  split; [done |]. split; [done |]. split.
  - intros p log p' e _ HJ Hcall Hadv. on_step Hcall Hadv; try exact I.
    + by exists log.
    + destruct HJ as (log' & -> & Htask). by exists log', task.
  - intros p log e _ HJ Hcall ev m kw. on_point p Hcall; intros [=]. subst.
    destruct HJ as (log' & task & -> & Htask & Hev).
    exists log', cls, (task_kwargs a chunked tokenizer has_instructions), task,
           (mteb_kwargs a chunked task tokenizer has_instructions), chunked.
    split; [done |]. split; [done |]. split; [done |].
    split; [apply mteb_kwargs_tasks |]. split; [apply task_kwargs_flag |].
    split; [apply mteb_kwargs_flag | apply run_output_folder].
Qed.

(** X9. An evaluation run is the third call of a row: a task is
    constructed, [MTEB] is constructed with [tasks] holding just that task,
    and the evaluation [MTEB] returned is the one run.  The three agree on
    the mode: the task and the evaluation built with
    [chunked_pooling_enabled=True] write to 'results-chunked-pooling', those
    built with [False] to 'results-normal-pooling'. *)
Theorem run_follows_its_construction (w : World) (a : main_args)
    (i : nat) (ev m : pyval) (kw : kwargs) :
  (invoke w a).1 !! i = Some (ERun ev m kw) →
  ∃ k c tkw task mkw chunked,
    i = S (S k)
    ∧ (invoke w a).1 !! k = Some (ECall c tkw)
    ∧ on_call w (take k (invoke w a).1) c tkw = Ok task
    ∧ (invoke w a).1 !! S k = Some (EMTEB mkw)
    ∧ on_MTEB w (take (S k) (invoke w a).1) mkw = Ok ev
    ∧ mkw !! "tasks" = Some (VList [task])
    ∧ tkw !! "chunked_pooling_enabled" = Some (VBool chunked)
    ∧ mkw !! "chunked_pooling_enabled" = Some (VBool chunked)
    ∧ kw !! "output_folder" = Some (VStr (output_folder chunked)).
Proof.
  intros Hi.
  destruct (run_follows_construction w a i _ Hi ev m kw eq_refl)
    as (log & c & tkw & task & mkw & chunked & Htake & Htask & Hev & Hrest).
  destruct (take_snoc_inv _ _ _ _ _ Hi Htake) as (j & -> & Hj & Htake').
  destruct (take_snoc_inv _ _ _ _ _ Hj Htake') as (k & -> & Hk & Htake'').
  exists k, c, tkw, task, mkw, chunked.
  split; [done |]. split; [done |]. split; [by rewrite Htake'' |].
  split; [done |]. split; [by rewrite Htake' |]. exact Hrest.
Qed.

Lemma run_follows_its_construction_witness :
  (invoke sample_world default_args).1 !! 9%nat
    = Some (ERun (VRef 8) (VRef 0) (run_kwargs default_args "results-normal-pooling"))
  ∧ ∃ k c tkw task mkw chunked,
      9%nat = S (S k)
      ∧ (invoke sample_world default_args).1 !! k = Some (ECall c tkw)
      ∧ on_call sample_world (take k (invoke sample_world default_args).1) c tkw
        = Ok task
      ∧ (invoke sample_world default_args).1 !! S k = Some (EMTEB mkw)
      ∧ on_MTEB sample_world (take (S k) (invoke sample_world default_args).1) mkw
        = Ok (VRef 8)
      ∧ mkw !! "tasks" = Some (VList [task])
      ∧ tkw !! "chunked_pooling_enabled" = Some (VBool chunked)
      ∧ mkw !! "chunked_pooling_enabled" = Some (VBool chunked)
      ∧ run_kwargs default_args "results-normal-pooling" !! "output_folder"
        = Some (VStr (output_folder chunked)).
Proof.
  split; [reflexivity |].
  apply (run_follows_its_construction sample_world default_args 9 (VRef 8) (VRef 0)
           (run_kwargs default_args "results-normal-pooling")).
  reflexivity.
Defined.

(** ** The normal-pooling run comes second *)

Lemma normal_run_after_chunked (w : World) (a : main_args) :
  hist (λ before e, ∀ ev m kw, e = ERun ev m kw →
          kw !! "output_folder" = Some (VStr "results-normal-pooling") →
          ∃ ev1,
            asked before (ERun ev1 m (run_kwargs a "results-chunked-pooling"))
              (λ log, on_run w log ev1 m (run_kwargs a "results-chunked-pooling")
                      = Ok ()))
       (invoke w a).1.
Proof.
  apply invoke_hist. intros cls Hcls Hdoc.
  set (first_run := λ (m : pyval) (log : list event),
         ∃ ev1, asked log (ERun ev1 m (run_kwargs a "results-chunked-pooling"))
                  (λ log, on_run w log ev1 m (run_kwargs a "results-chunked-pooling")
                          = Ok ())).
  assert (∀ m log e, first_run m log → first_run m (log ++ [e])) as Hkeep.
  { intros m log e [ev1 Hrun]. exists ev1. by apply asked_snoc. }
  exists (λ p log,
    match p with
    | PTask false m _ _ | PMTEB false m _ _ _ | PRun false m _ _ _ => first_run m log
    | _ => True
    end).
  split; [done |]. split; [done |]. split.
  - intros p log p' e _ HJ Hcall Hadv. on_step Hcall Hadv; try exact I.
    + destruct chunked; [exact I | by apply Hkeep].
    + destruct chunked; [exact I | by apply Hkeep].
    + exists evaluation. by apply asked_last.
  - intros p log e _ HJ Hcall ev m kw. on_point p Hcall; intros [=]. subst.
    intros Hfolder. rewrite run_output_folder in Hfolder.
    destruct chunked; [discriminate Hfolder | exact HJ].
Qed.

(** X10. The run that writes to 'results-normal-pooling' is made only after
    a run on the same model that writes to 'results-chunked-pooling' was
    made and returned. *)
Theorem normal_run_only_after_chunked_run (w : World) (a : main_args)
    (i : nat) (ev m : pyval) (kw : kwargs) :
  (invoke w a).1 !! i = Some (ERun ev m kw) →
  kw !! "output_folder" = Some (VStr "results-normal-pooling") →
  ∃ j ev1 kw1, (j < i)%nat
    ∧ (invoke w a).1 !! j = Some (ERun ev1 m kw1)
    ∧ kw1 !! "output_folder" = Some (VStr "results-chunked-pooling")
    ∧ on_run w (take j (invoke w a).1) ev1 m kw1 = Ok ().
Proof.
  intros Hi Hfolder.
  destruct (normal_run_after_chunked w a i _ Hi ev m kw eq_refl Hfolder) as [ev1 Hrun].
  apply asked_take in Hrun as (j & Hlt & Hj & Hok).
  exists j, ev1, (run_kwargs a "results-chunked-pooling").
  split; [done |]. split; [done |]. split; [apply run_output_folder | done].
Qed.

Lemma normal_run_only_after_chunked_run_witness :
  (invoke sample_world default_args).1 !! 9%nat
    = Some (ERun (VRef 8) (VRef 0) (run_kwargs default_args "results-normal-pooling"))
  ∧ run_kwargs default_args "results-normal-pooling" !! "output_folder"
    = Some (VStr "results-normal-pooling")
  ∧ ∃ j ev1 kw1, (j < 9)%nat
      ∧ (invoke sample_world default_args).1 !! j = Some (ERun ev1 (VRef 0) kw1)
      ∧ kw1 !! "output_folder" = Some (VStr "results-chunked-pooling")
      ∧ on_run sample_world (take j (invoke sample_world default_args).1)
          ev1 (VRef 0) kw1 = Ok ().
Proof.
  split; [reflexivity |]. split; [reflexivity |].
  apply (normal_run_only_after_chunked_run sample_world default_args 9
           (VRef 8) (VRef 0) (run_kwargs default_args "results-normal-pooling"));
    reflexivity.
Defined.

(** ** What every construction receives *)

Lemma task_kwargs_shared (a : main_args) (chunked : bool) (tok hi : pyval) :
  task_kwargs a chunked tok hi !! "tokenizer" = Some tok
  ∧ task_kwargs a chunked tok hi !! "model_has_instructions" = Some hi
  ∧ task_kwargs a chunked tok hi !! "chunk_size" = Some (VInt (chunk_size a))
  ∧ task_kwargs a chunked tok hi !! "n_sentences" = Some (VInt (n_sentences a))
  ∧ task_kwargs a chunked tok hi !! "chunking_strategy" = Some (VStr (strategy a))
  ∧ task_kwargs a chunked tok hi !! "prune_size" = Some VNone.
Proof. by destruct chunked. Qed.

Lemma mteb_kwargs_shared (a : main_args) (chunked : bool) (task tok hi : pyval) :
  mteb_kwargs a chunked task tok hi !! "tokenizer" = Some tok
  ∧ mteb_kwargs a chunked task tok hi !! "model_has_instructions" = Some hi
  ∧ mteb_kwargs a chunked task tok hi !! "chunk_size" = Some (VInt (chunk_size a))
  ∧ mteb_kwargs a chunked task tok hi !! "n_sentences" = Some (VInt (n_sentences a))
  ∧ mteb_kwargs a chunked task tok hi !! "chunking_strategy" = Some (VStr (strategy a))
  ∧ mteb_kwargs a chunked task tok hi !! "prune_size" = Some VNone.
Proof. repeat split; reflexivity. Qed.

Lemma constructions_share (w : World) (a : main_args) :
  hist (λ before e, ∀ kw, (∃ c, e = ECall c kw) ∨ e = EMTEB kw →
          ∃ hi tok,
            asked before (ELoadModel (model_name a))
              (λ log, ∃ m, on_load_model w log (model_name a) = Ok (m, hi))
            ∧ asked before
                (EFromPretrained (model_name a) {[ "trust_remote_code" := VBool true ]})
                (λ log, on_from_pretrained w log (model_name a)
                          {[ "trust_remote_code" := VBool true ]} = Ok tok)
            ∧ kw !! "tokenizer" = Some tok
            ∧ kw !! "model_has_instructions" = Some hi
            ∧ kw !! "chunk_size" = Some (VInt (chunk_size a))
            ∧ kw !! "n_sentences" = Some (VInt (n_sentences a))
            ∧ kw !! "chunking_strategy" = Some (VStr (strategy a))
            ∧ kw !! "prune_size" = Some VNone)
       (invoke w a).1.
Proof.
  apply invoke_hist. intros cls Hcls Hdoc.
  set (loaded := λ (hi : pyval) (log : list event),
         asked log (ELoadModel (model_name a))
           (λ log, ∃ m, on_load_model w log (model_name a) = Ok (m, hi))).
  set (tokenized := λ (tok : pyval) (log : list event),
         asked log
           (EFromPretrained (model_name a) {[ "trust_remote_code" := VBool true ]})
           (λ log, on_from_pretrained w log (model_name a)
                     {[ "trust_remote_code" := VBool true ]} = Ok tok)).
  exists (λ p log,
    match p with
    | PTokenizer _ hi => loaded hi log
    | PCudaIsAvailable _ hi tok | PCuda _ hi tok | PEval _ hi tok
    | PTask _ _ hi tok | PMTEB _ _ hi tok _ | PRun _ _ hi tok _ =>
        loaded hi log ∧ tokenized tok log
    | _ => True
    end).
  split; [done |]. split; [by intros _ kw [[c [=]] | [=]] |]. split.
  - intros p log p' e _ HJ Hcall Hadv. on_step Hcall Hadv; try exact I;
      try (destruct HJ as [? ?]; split; by apply asked_snoc).
    + apply asked_last. eauto.
    + split; [by apply asked_snoc | by apply asked_last].
  - intros p log e _ HJ Hcall kw.
    on_point p Hcall; intros [[c [=]] | [=]]; subst;
      destruct HJ as [Hhi Htok]; exists has_instructions, tokenizer;
      (split; [exact Hhi |]); (split; [exact Htok |]).
    + apply task_kwargs_shared.
    + apply mteb_kwargs_shared.
Qed.

(** X11. Every task construction and every [MTEB] construction receives
    the tokenizer that [AutoTokenizer.from_pretrained(model_name,
    trust_remote_code=True)] returned, the [has_instructions] value that
    [load_model(model_name)] returned, the options [chunk_size],
    [n_sentences] and [strategy] unchanged, and [prune_size=None]. *)
Theorem constructions_share_tokenizer_and_args (w : World) (a : main_args)
    (i : nat) (e : event) (kw : kwargs) :
  (invoke w a).1 !! i = Some e →
  (∃ c, e = ECall c kw) ∨ e = EMTEB kw →
  ∃ k j m hi tok, (k < i)%nat ∧ (j < i)%nat
    ∧ (invoke w a).1 !! k = Some (ELoadModel (model_name a))
    ∧ on_load_model w (take k (invoke w a).1) (model_name a) = Ok (m, hi)
    ∧ (invoke w a).1 !! j
      = Some (EFromPretrained (model_name a) {[ "trust_remote_code" := VBool true ]})
    ∧ on_from_pretrained w (take j (invoke w a).1) (model_name a)
        {[ "trust_remote_code" := VBool true ]} = Ok tok
    ∧ kw !! "tokenizer" = Some tok
    ∧ kw !! "model_has_instructions" = Some hi
    ∧ kw !! "chunk_size" = Some (VInt (chunk_size a))
    ∧ kw !! "n_sentences" = Some (VInt (n_sentences a))
    ∧ kw !! "chunking_strategy" = Some (VStr (strategy a))
    ∧ kw !! "prune_size" = Some VNone.
Proof.
  intros Hi He.
  destruct (constructions_share w a i e Hi kw He) as (hi & tok & Hhi & Htok & Hkw).
  apply asked_take in Hhi as (k & Hk & Hload & m & Hm).
  apply asked_take in Htok as (j & Hj & Hfrom & Htok).
  exists k, j, m, hi, tok. by repeat (split; [done |]).
Qed.

Lemma constructions_share_tokenizer_and_args_witness :
  (invoke sample_world semantic).1 !! 8%nat
    = Some (EMTEB (mteb_kwargs semantic false (VRef 7) (VRef 1) (VBool false)))
  ∧ ((∃ c, EMTEB (mteb_kwargs semantic false (VRef 7) (VRef 1) (VBool false))
           = ECall c (mteb_kwargs semantic false (VRef 7) (VRef 1) (VBool false)))
     ∨ EMTEB (mteb_kwargs semantic false (VRef 7) (VRef 1) (VBool false))
       = EMTEB (mteb_kwargs semantic false (VRef 7) (VRef 1) (VBool false)))
  ∧ ∃ k j m hi tok, (k < 8)%nat ∧ (j < 8)%nat
      ∧ (invoke sample_world semantic).1 !! k = Some (ELoadModel (model_name semantic))
      ∧ on_load_model sample_world (take k (invoke sample_world semantic).1)
          (model_name semantic) = Ok (m, hi)
      ∧ (invoke sample_world semantic).1 !! j
        = Some (EFromPretrained (model_name semantic)
                  {[ "trust_remote_code" := VBool true ]})
      ∧ on_from_pretrained sample_world (take j (invoke sample_world semantic).1)
          (model_name semantic) {[ "trust_remote_code" := VBool true ]} = Ok tok
      ∧ mteb_kwargs semantic false (VRef 7) (VRef 1) (VBool false) !! "tokenizer"
        = Some tok
      ∧ mteb_kwargs semantic false (VRef 7) (VRef 1) (VBool false)
          !! "model_has_instructions" = Some hi
      ∧ mteb_kwargs semantic false (VRef 7) (VRef 1) (VBool false) !! "chunk_size"
        = Some (VInt (chunk_size semantic))
      ∧ mteb_kwargs semantic false (VRef 7) (VRef 1) (VBool false) !! "n_sentences"
        = Some (VInt (n_sentences semantic))
      ∧ mteb_kwargs semantic false (VRef 7) (VRef 1) (VBool false)
          !! "chunking_strategy" = Some (VStr (strategy semantic))
      ∧ mteb_kwargs semantic false (VRef 7) (VRef 1) (VBool false) !! "prune_size"
        = Some VNone.
Proof.
  split; [reflexivity |]. split; [by right |].
  apply (constructions_share_tokenizer_and_args sample_world semantic 8
           (EMTEB (mteb_kwargs semantic false (VRef 7) (VRef 1) (VBool false)))
           (mteb_kwargs semantic false (VRef 7) (VRef 1) (VBool false)));
    [reflexivity | by right].
Defined.

(** ** How far an invocation gets *)

Lemma runs_snoc (log : list event) (e : event) :
  runs (log ++ [e]) = runs log ++ runs [e].
Proof. apply omap_app. Qed.

Lemma task_calls_snoc (log : list event) (e : event) :
  task_calls (log ++ [e]) = task_calls log ++ task_calls [e].
Proof. apply omap_app. Qed.

Lemma mteb_calls_snoc (log : list event) (e : event) :
  mteb_calls (log ++ [e]) = mteb_calls log ++ mteb_calls [e].
Proof. apply omap_app. Qed.

Lemma runs_notice_log (a : main_args) : runs (notice_log a) = [].
Proof. unfold notice_log. by destruct (truncation_wins a). Qed.

(** The runs logged by the time [main] is at a point. *)
Lemma reach_runs (w : World) (a : main_args) (cls : pyval) (p : point) (log : list event) :
  reach w a cls p log →
  match p with
  | PTask false m _ _ | PMTEB false m _ _ _ | PRun false m _ _ _ =>
      ∃ ev1, runs log = [(ev1, m, run_kwargs a "results-chunked-pooling")]
  | PDone =>
      ∃ ev1 ev2 m, runs log = [(ev1, m, run_kwargs a "results-chunked-pooling");
                               (ev2, m, run_kwargs a "results-normal-pooling")]
  | _ => runs log = []
  end.
Proof.
  induction 1 as [| p log p' e Hreach IH Hcall Hadv]; [apply runs_notice_log |].
  on_step Hcall Hadv; rewrite runs_snoc; try (by rewrite IH).
  - destruct chunked; [by rewrite IH |].
    destruct IH as [ev1 ->]. by exists ev1.
  - destruct chunked; [by rewrite IH |].
    destruct IH as [ev1 ->]. by exists ev1.
  - rewrite IH. by exists evaluation.
  - destruct IH as [ev1 ->]. by exists ev1, evaluation, model.
Qed.

(** X12. [main] returns normally only when the task name resolved, the
    options passed the second validation, no call raised, and exactly two
    evaluation runs were made, on one model: the chunked-pooling run, then
    the normal-pooling run. *)
Theorem normal_exit_means_two_runs (w : World) (a : main_args) :
  (invoke w a).2 = Ok () →
  ∃ cls ev1 ev2 m,
    resolves w a cls
    ∧ handles_documents a
    ∧ runs (invoke w a).1 = [(ev1, m, run_kwargs a "results-chunked-pooling");
                             (ev2, m, run_kwargs a "results-normal-pooling")]
    ∧ clean w (invoke w a).1.
Proof.
  intros Hok.
  destruct (globals w !! task_name a) as [cls |] eqn:Hcls;
    [| by rewrite (invoke_unresolved w a Hcls) in Hok].
  destruct (invoke_outline w a cls Hcls) as [[_ Hbad] | [Hdoc _]];
    [by rewrite Hbad in Hok |].
  pose proof (invoke_reach w a cls Hcls Hdoc) as (p & log & Hreach & Hend).
  assert (clean w (invoke w a).1) as Hclean.
  { unfold invoke in *. destruct (main a w []) as [final r] eqn:Hrun.
    simpl in Hok. subst r. exact (main_faithful w a [] final (Ok ()) Hrun (clean_nil w)). }
  destruct Hend as [[-> Hfinal] | (e & x & _ & _ & Hfinal)];
    rewrite Hfinal in *; [| discriminate Hok].
  destruct (reach_runs w a cls PDone log Hreach) as (ev1 & ev2 & m & Hruns).
  exists cls, ev1, ev2, m. by repeat (split; [done |]).
Qed.

Lemma normal_exit_means_two_runs_witness :
  (invoke sample_world default_args).2 = Ok ()
  ∧ ∃ cls ev1 ev2 m,
      resolves sample_world default_args cls
      ∧ handles_documents default_args
      ∧ runs (invoke sample_world default_args).1
        = [(ev1, m, run_kwargs default_args "results-chunked-pooling");
           (ev2, m, run_kwargs default_args "results-normal-pooling")]
      ∧ clean sample_world (invoke sample_world default_args).1.
Proof.
  split; [reflexivity |].
  apply (normal_exit_means_two_runs sample_world default_args). reflexivity.
Defined.

Lemma reach_progress (w : World) (a : main_args) (cls : pyval)
    (p : point) (log : list event) :
  reach w a cls p log →
  (length (task_calls log), length (mteb_calls log), length (runs log))
  = match p with
    | PMTEB true _ _ _ _ => (1, 0, 0)
    | PRun true _ _ _ _ => (1, 1, 0)
    | PTask false _ _ _ => (1, 1, 1)
    | PMTEB false _ _ _ _ => (2, 1, 1)
    | PRun false _ _ _ _ => (2, 2, 1)
    | PDone => (2, 2, 2)
    | _ => (0, 0, 0)
    end%nat.
Proof.
  induction 1 as [| p log p' e Hreach IH Hcall Hadv].
  - unfold notice_log. by destruct (truncation_wins a).
  - on_step Hcall Hadv;
      rewrite task_calls_snoc, mteb_calls_snoc, runs_snoc, !length_app;
      try destruct chunked; injection IH as -> -> ->; reflexivity.
Qed.

(** X13. In every invocation there is a task for every evaluation and an
    evaluation for every run, the next task is built only once the last
    evaluation was run, and there are never more than two of each. *)
Theorem constructions_and_runs_alternate (w : World) (a : main_args) :
  (length (runs (invoke w a).1) ≤ length (mteb_calls (invoke w a).1))%nat
  ∧ (length (mteb_calls (invoke w a).1) ≤ length (task_calls (invoke w a).1))%nat
  ∧ (length (task_calls (invoke w a).1) ≤ S (length (runs (invoke w a).1)))%nat
  ∧ (length (task_calls (invoke w a).1) ≤ 2)%nat.
Proof.
  destruct (globals w !! task_name a) as [cls |] eqn:Hcls;
    [| rewrite (invoke_unresolved w a Hcls); simpl; lia].
  destruct (invoke_outline w a cls Hcls) as [[_ ->] | [Hdoc _]]; [simpl; lia |].
  destruct (invoke_reach w a cls Hcls Hdoc) as (p & log & Hreach & Hend).
  pose proof (reach_progress w a cls p log Hreach) as Hcount.
  destruct Hend as [[-> ->] | (e & x & Hcall & _ & ->)]; cbn [fst].
  - injection Hcount as -> -> ->. lia.
  - rewrite task_calls_snoc, mteb_calls_snoc, runs_snoc, !length_app.
    on_point p Hcall; try destruct chunked; injection Hcount as -> -> ->;
      simpl; lia.
Qed.

(** ** The validations *)

Lemma proceeds_nonempty (a : main_args) (log : list event) :
  proceeds a log → log ≠ [].
Proof.
  intros (model & rest & -> & _) Hnil.
  apply app_eq_nil in Hnil as [Hnil _]. apply app_eq_nil in Hnil as [_ [=]].
Qed.

(** X1. An invocation makes no call at all exactly when the task name is
    unknown or the options define neither truncation nor a positive
    window; it then ends with one of the two errors [main] raises itself. *)
Theorem rejected_iff_nothing_done (w : World) (a : main_args) :
  ((invoke w a).1 = [] ↔ globals w !! task_name a = None ∨ ¬ handles_documents a)
  ∧ ((invoke w a).1 = [] → ∃ x, own_error a x ∧ (invoke w a).2 = Raise x).
Proof.
  destruct (globals w !! task_name a) as [cls |] eqn:Hcls.
  - destruct (invoke_outline w a cls Hcls) as [[Hno ->] | [Hdoc Hgo]].
    + split; [split; auto |]. intros _. exists (AssertionError assert_msg).
      split; [by right | done].
    + apply proceeds_nonempty in Hgo. split; [| done].
      split; [done |]. by intros [[=] | Hno].
  - rewrite (invoke_unresolved w a Hcls).
    split; [split; auto |]. intros _.
    exists (ValueError ("Unknown task name: " +:+ task_name a)).
    split; [by left | done].
Qed.

(** X2. When the task name resolves and truncation is unset, a window
    that is 0 or negative is rejected by the assert, before any call. *)
Theorem nonpositive_window_rejected (w : World) (a : main_args) (cls : pyval) :
  resolves w a cls →
  truncate_max_length a = None →
  long_late_chunking_embed_size a ≤ 0 →
  invoke w a = ([], Raise (AssertionError assert_msg)).
Proof.
  intros Hcls Ht Hw.
  destruct (invoke_outline w a cls Hcls) as [[_ Hbad] | [[[t Hdoc] | Hdoc] _]];
    [done | congruence | lia].
Qed.

Lemma nonpositive_window_rejected_witness :
  resolves sample_world (with_limits None (-5) default_args) SciFactChunked
  ∧ truncate_max_length (with_limits None (-5) default_args) = None
  ∧ long_late_chunking_embed_size (with_limits None (-5) default_args) ≤ 0
  ∧ invoke sample_world (with_limits None (-5) default_args)
    = ([], Raise (AssertionError assert_msg)).
Proof.
  split; [reflexivity |]. split; [reflexivity |]. split; [discriminate |].
  apply (nonpositive_window_rejected sample_world (with_limits None (-5) default_args)
           SciFactChunked); [reflexivity | reflexivity | discriminate].
Defined.

(** ** The notice *)

Lemma truncation_wins_spec (a : main_args) :
  truncation_wins a = true
  ↔ is_Some (truncate_max_length a) ∧ 0 < long_late_chunking_embed_size a.
Proof.
  unfold truncation_wins. destruct (truncate_max_length a) as [t |]; simpl.
  - rewrite Z.gtb_ltb, Z.ltb_lt. split; [eauto | by intros [_ ?]].
  - split; [done | by intros [[? [=]] _]].
Qed.

Lemma prints_first (w : World) (a : main_args) :
  hist (λ before e, ∀ s, e = EPrint s →
          before = [] ∧ s = notice ∧ truncation_wins a = true)
       (invoke w a).1.
Proof.
  apply invoke_hist. intros cls Hcls Hdoc. exists (λ _ _, True).
  split; [done |]. split; [by intros Hwins s [= <-] |]. split; [done |].
  intros p log e _ _ Hcall s. on_point p Hcall; intros [=].
Qed.

(** X3. The only line [main] prints is the notice, as the very first
    thing it does, and it prints it exactly when the task name resolves,
    truncation is set and the window option is positive. *)
Theorem notice_is_the_only_print (w : World) (a : main_args) :
  (∀ i s, (invoke w a).1 !! i = Some (EPrint s) → i = 0%nat ∧ s = notice)
  ∧ ((invoke w a).1 !! 0%nat = Some (EPrint notice)
     ↔ is_Some (globals w !! task_name a)
       ∧ is_Some (truncate_max_length a)
       ∧ 0 < long_late_chunking_embed_size a).
Proof.
  split; [| split].
  - intros i s Hi.
    destruct (prints_first w a i _ Hi s eq_refl) as (Htake & -> & _).
    split; [| done]. apply lookup_lt_Some in Hi.
    apply (f_equal length) in Htake. rewrite length_take in Htake. simpl in Htake. lia.
  - intros H0. destruct (prints_first w a 0%nat _ H0 notice eq_refl) as (_ & _ & Hwins).
    apply truncation_wins_spec in Hwins as [Ht Hw].
    split; [| done]. destruct (globals w !! task_name a) eqn:Hcls; [eauto |].
    by rewrite (invoke_unresolved w a Hcls) in H0.
  - intros ([cls Hcls] & Ht & Hw).
    assert (truncation_wins a = true) as Hwins by by apply truncation_wins_spec.
    destruct (invoke_outline w a cls Hcls) as [[Hno _] | [_ Hgo]];
      [destruct Hno; by left |].
    destruct Hgo as (model & rest & -> & _). unfold notice_log. by rewrite Hwins.
Qed.

(** ** The window when truncation does not override it *)

(** X4. Unless truncation is set together with a positive window, the
    window a task constructor receives is the option unchanged (a window
    that is 0 or negative given with truncation included), and the
    constructor that receives it is the chunked one. *)
Theorem window_unchanged_without_override (w : World) (a : main_args)
    (c : pyval) (kw : kwargs) (v : pyval) :
  ECall c kw ∈ (invoke w a).1 →
  kw !! "long_late_chunking_embed_size" = Some v →
  ¬ (is_Some (truncate_max_length a) ∧ 0 < long_late_chunking_embed_size a) →
  v = VInt (long_late_chunking_embed_size a)
  ∧ kw !! "chunked_pooling_enabled" = Some (VBool true).
Proof.
  intros Hin Hv Hno.
  destruct (task_call_site w a c kw Hin) as (_ & tok & hi & [-> | ->]).
  - rewrite chunked_task_window in Hv. injection Hv as <-. split; [| reflexivity].
    unfold effective_window. destruct (truncation_wins a) eqn:Hwins; [| done].
    by apply truncation_wins_spec in Hwins.
  - rewrite normal_task_window in Hv. discriminate Hv.
Qed.

Lemma window_unchanged_without_override_witness :
  ECall SciFactChunked
    (chunked_task_kwargs (with_limits (Some 5) (-3) default_args) (VRef 1) (VBool false))
    ∈ (invoke sample_world (with_limits (Some 5) (-3) default_args)).1
  ∧ chunked_task_kwargs (with_limits (Some 5) (-3) default_args) (VRef 1) (VBool false)
      !! "long_late_chunking_embed_size" = Some (VInt (-3))
  ∧ ¬ (is_Some (truncate_max_length (with_limits (Some 5) (-3) default_args))
       ∧ 0 < long_late_chunking_embed_size (with_limits (Some 5) (-3) default_args))
  ∧ VInt (-3) = VInt (long_late_chunking_embed_size (with_limits (Some 5) (-3) default_args))
  ∧ chunked_task_kwargs (with_limits (Some 5) (-3) default_args) (VRef 1) (VBool false)
      !! "chunked_pooling_enabled" = Some (VBool true).
Proof.
  assert (ECall SciFactChunked
            (chunked_task_kwargs (with_limits (Some 5) (-3) default_args)
               (VRef 1) (VBool false))
            ∈ (invoke sample_world (with_limits (Some 5) (-3) default_args)).1) as Hin.
  { apply (list_elem_of_lookup_2 _ 4%nat). reflexivity. }
  assert (¬ (is_Some (truncate_max_length (with_limits (Some 5) (-3) default_args))
             ∧ 0 < long_late_chunking_embed_size (with_limits (Some 5) (-3) default_args)))
    as Hno by (intros [_ Hw]; discriminate Hw).
  split; [exact Hin |]. split; [reflexivity |]. split; [exact Hno |].
  apply (window_unchanged_without_override sample_world
           (with_limits (Some 5) (-3) default_args) SciFactChunked
           (chunked_task_kwargs (with_limits (Some 5) (-3) default_args)
              (VRef 1) (VBool false)) (VInt (-3)) Hin eq_refl Hno).
Defined.

(** ** Names that resolve whatever the star import brings *)

Lemma import_star_keeps (exports : list (string * pyval)) (ns : kwargs) (k : string) :
  is_Some (ns !! k) → is_Some (import_star exports ns !! k).
Proof.
  unfold import_star. revert ns.
  induction exports as [| [k' v] exports IH]; intros ns Hk; [done |].
  simpl. apply IH. destruct (decide (k' = k)) as [-> | Hne].
  - rewrite lookup_insert_eq. eauto.
  - by rewrite lookup_insert_ne.
Qed.

Lemma module_names_bound (w : World) (k : string) :
  k ∈ module_names → is_Some (globals w !! k).
Proof.
  intros Hk. unfold globals.
  repeat match goal with
  | |- is_Some (<[?k' := _]> _ !! k) =>
      destruct (decide (k' = k)) as [<- | ?];
        [rewrite lookup_insert_eq; eauto | rewrite lookup_insert_ne by done]
  end.
  apply import_star_keeps.
  repeat match goal with
  | |- is_Some (<[?k' := _]> _ !! k) =>
      destruct (decide (k' = k)) as [<- | ?];
        [rewrite lookup_insert_eq; eauto | rewrite lookup_insert_ne by done]
  end.
  unfold module_names in Hk.
  repeat (apply elem_of_cons in Hk as [-> | Hk]; [done |]).
  by apply elem_of_nil in Hk.
Qed.

(** X5. A task name that is a name the script binds at module level (an
    import, a constant, [load_model], [main]) passes the task-name check
    in every world: with options that pass the second validation the model
    is loaded, and what [main] then calls as the task class is the object
    bound to that name, the integer 1 for BATCH_SIZE. *)
Theorem module_names_pass_lookup (w : World) (a : main_args) :
  task_name a ∈ module_names →
  handles_documents a →
  ∃ c, resolves w a c
    ∧ ELoadModel (model_name a) ∈ (invoke w a).1
    ∧ (∀ c' kw, ECall c' kw ∈ (invoke w a).1 → c' = c)
    ∧ (task_name a = "BATCH_SIZE" → c = VInt 1).
Proof.
  intros Hname Hdoc.
  destruct (module_names_bound w (task_name a) Hname) as [c Hc].
  exists c. split; [exact Hc |]. split; [| split].
  - destruct (invoke_outline w a c Hc) as [[Hno _] | [_ Hgo]]; [done |].
    destruct Hgo as (model & rest & -> & _).
    apply elem_of_app. left. apply elem_of_app. right. apply list_elem_of_here.
  - intros c' kw Hin. destruct (task_call_site w a c' kw Hin) as [Hc' _].
    unfold resolves in *. congruence.
  - intros Hbatch. unfold resolves in Hc. rewrite Hbatch in Hc.
    destruct (globals_own_names w) as (_ & Hone & _).
    rewrite Hone in Hc. by injection Hc as <-.
Qed.

Lemma module_names_pass_lookup_witness :
  task_name (with_task "BATCH_SIZE" default_args) ∈ module_names
  ∧ handles_documents (with_task "BATCH_SIZE" default_args)
  ∧ ∃ c, resolves sample_world (with_task "BATCH_SIZE" default_args) c
      ∧ ELoadModel (model_name (with_task "BATCH_SIZE" default_args))
          ∈ (invoke sample_world (with_task "BATCH_SIZE" default_args)).1
      ∧ (∀ c' kw,
           ECall c' kw ∈ (invoke sample_world (with_task "BATCH_SIZE" default_args)).1 →
           c' = c)
      ∧ (task_name (with_task "BATCH_SIZE" default_args) = "BATCH_SIZE" → c = VInt 1).
Proof.
  assert (task_name (with_task "BATCH_SIZE" default_args) ∈ module_names) as Hname.
  { apply (list_elem_of_lookup_2 _ 9%nat). reflexivity. }
  assert (handles_documents (with_task "BATCH_SIZE" default_args)) as Hdoc.
  { right. reflexivity. }
  split; [exact Hname |]. split; [exact Hdoc |].
  exact (module_names_pass_lookup sample_world (with_task "BATCH_SIZE" default_args)
           Hname Hdoc).
Defined.

(** ** From the flags to [main] *)

(** X14. The flags that spell out a configuration reach [main] as that
    configuration: each given value under the parameter of its flag, and
    [None] for the two options that are not given. *)
Theorem click_parse_round_trip (a : main_args) :
  click_parse (given_of a) = Ok a
  ∧ ∀ w, command w (given_of a) = invoke w a.
Proof.
  assert (click_parse (given_of a) = Ok a) as Hparse.
  { destruct a as [? ? ? ? [s |] [t |] ? ? ? ?]; reflexivity. }
  split; [exact Hparse |]. intros w. unfold command. by rewrite Hparse.
Qed.

Lemma click_parse_truncate_only (t : Z) :
  click_parse {[ "truncate_max_length" := VInt t ]}
  = Ok (with_limits (Some t) DEFAULT_LONG_LATE_CHUNKING_EMBED_SIZE default_args).
Proof. reflexivity. Qed.

(** X15. Given [--truncate-max-length] alone, the default window of 8192
    is overridden: the notice is printed first, every window a task
    constructor receives is 0, and the truncation length reaches both task
    constructors. *)
Theorem truncate_flag_alone_disables_window (w : World) (t : Z) :
  "SciFactChunked" ∈ (star_exports w).*1 →
  (∃ rest, (command w {[ "truncate_max_length" := VInt t ]}).1 = EPrint notice :: rest)
  ∧ (∀ c kw v, ECall c kw ∈ (command w {[ "truncate_max_length" := VInt t ]}).1 →
       kw !! "long_late_chunking_embed_size" = Some v → v = VInt 0)
  ∧ (∀ c kw, ECall c kw ∈ (command w {[ "truncate_max_length" := VInt t ]}).1 →
       kw !! "truncate_max_length" = Some (VInt t)).
Proof.
  intros Hexport. unfold command. rewrite click_parse_truncate_only.
  set (a := with_limits (Some t) DEFAULT_LONG_LATE_CHUNKING_EMBED_SIZE default_args).
  destruct (globals_star w "SciFactChunked" Hexport) as [cls Hcls].
  assert (truncation_wins a = true ∧ effective_window a = 0) as [Hwins Hzero].
  { by apply (effective_window_forced a t). }
  split; [| split].
  - destruct (invoke_outline w a cls Hcls) as [[Hno _] | [_ Hgo]].
    + destruct Hno. left. by exists t.
    + destruct Hgo as (model & rest & -> & _).
      unfold notice_log. rewrite Hwins. by eexists.
  - intros c kw v Hin Hv.
    destruct (task_call_site w a c kw Hin) as (_ & tok & hi & [-> | ->]).
    + rewrite chunked_task_window, Hzero in Hv. by injection Hv as <-.
    + rewrite normal_task_window in Hv. discriminate Hv.
  - intros c kw Hin.
    by destruct (task_call_site w a c kw Hin) as (_ & tok & hi & [-> | ->]).
Qed.

Lemma truncate_flag_alone_disables_window_witness :
  "SciFactChunked" ∈ (star_exports sample_world).*1
  ∧ ∃ rest, (command sample_world {[ "truncate_max_length" := VInt 512 ]}).1
              = EPrint notice :: rest.
Proof.
  assert ("SciFactChunked" ∈ (star_exports sample_world).*1) as Hexport.
  { apply list_elem_of_here. }
  split; [exact Hexport |].
  exact (proj1 (truncate_flag_alone_disables_window sample_world 512 Hexport)).
Defined.

(** ** Where a failure comes from *)

(** X16. An invocation that fails either made no call and ends with one
    of the two errors of [main], or ends with the exception raised by its
    last call, every earlier call having returned. *)
Theorem failure_is_own_or_last_call (w : World) (a : main_args) (x : exn) :
  (invoke w a).2 = Raise x →
  (own_error a x ∧ (invoke w a).1 = [])
  ∨ ∃ before e, (invoke w a).1 = before ++ [e]
      ∧ raised w before e = Some x
      ∧ clean w before.
Proof.
  intros Hx.
  destruct (globals w !! task_name a) as [cls |] eqn:Hcls.
  - destruct (invoke_outline w a cls Hcls) as [[_ Hbad] | [Hdoc _]].
    + rewrite Hbad in *. injection Hx as <-. left. split; [by right | done].
    + right. unfold invoke in *. destruct (main a w []) as [log r] eqn:Hrun.
      simpl in Hx. subst r.
      destruct (main_faithful w a [] log (Raise x) Hrun (clean_nil w))
        as [[Hown Hclean] | (before & e & -> & Hclean & Hraised)]; [| by eauto].
      destruct (invoke_reach w a cls Hcls Hdoc) as (p & log' & Hreach & Hend).
      unfold invoke in Hend. rewrite Hrun in Hend.
      destruct Hend as [[_ [=]] | (e & y & _ & Hy & [= -> <-])].
      rewrite (Hclean log' e [] eq_refl) in Hy. discriminate Hy.
  - rewrite (invoke_unresolved w a Hcls) in *. injection Hx as <-.
    left. split; [by left | done].
Qed.

Lemma failure_is_own_or_last_call_witness :
  (invoke offline_world default_args).2 = Raise (OtherError "OSError" "no network")
  ∧ ((own_error default_args (OtherError "OSError" "no network")
      ∧ (invoke offline_world default_args).1 = [])
     ∨ ∃ before e, (invoke offline_world default_args).1 = before ++ [e]
         ∧ raised offline_world before e = Some (OtherError "OSError" "no network")
         ∧ clean offline_world before).
Proof.
  split; [reflexivity |].
  apply (failure_is_own_or_last_call offline_world default_args
           (OtherError "OSError" "no network")).
  reflexivity.
Defined.
